(** * Verification of the move search of [players.py]

    The AI player of the generalised tic-tac-toe game: candidate
    enumeration ([AI.get_possible_moves]), top-level selection
    ([AI.get_move]) and the depth-limited search with cutoffs
    ([AI.minimax]).

    The class [Board] (module [board]) is imported by [players.py] and is
    not part of the sources at hand; the search only talks to it through
    a handful of methods, which are taken here as the operations of a
    type class.  Heuristic values and static scores are integers; the two
    terminal scores [float('inf')] and [float('-inf')] are the two extra
    points of [Score]. *)

From Stdlib Require Import ZArith List Bool Lia.
From Stdlib Require Import Sorting.Sorted Sorting.Permutation.
From Stdlib Require Import Orders OrdersTac RelationClasses Morphisms.
Import ListNotations.
Open Scope Z_scope.

(** ** Data *)

(** The two marks, ['X'] (minimizer) and ['O'] (maximizer). *)
Inductive Mark : Type := X | O.

Definition mark_eqb (a b : Mark) : bool :=
  match a, b with
  | X, X | O, O => true
  | _, _ => false
  end.

(** [(tile_x, tile_y)] *)
Definition Pos : Type := Z * Z.

(** [(tile_x, tile_y, mark)] *)
Definition Move : Type := Z * Z * Mark.

Definition move_eqb (a b : Move) : bool :=
  let '(ax, ay, am) := a in
  let '(bx, by_, bm) := b in
  (ax =? bx) && (ay =? by_) && mark_eqb am bm.

(** An entry of a candidate list: [((score_X, score_O), move)]. *)
Definition Cand : Type := (Z * Z) * Move.

Definition key_x (c : Cand) : Z := fst (fst c).
Definition key_o (c : Cand) : Z := snd (fst c).

(** Scores handled by the search: a number, or one of the two infinities. *)
Inductive Score : Type := NegInf | Num (z : Z) | PosInf.

(** [a < b] on scores. *)
Definition score_ltb (a b : Score) : bool :=
  match a, b with
  | NegInf, NegInf => false
  | NegInf, _ => true
  | Num _, NegInf => false
  | Num x, Num y => x <? y
  | Num _, PosInf => true
  | PosInf, _ => false
  end.

(** [a > b] on scores. *)
Definition score_gtb (a b : Score) : bool := score_ltb b a.

(** ** Python list operations used by the search *)

(** [l[:k]] *)
Definition slice_to {A : Type} (l : list A) (k : Z) : list A :=
  if 0 <=? k then firstn (Z.to_nat k) l
  else firstn (Z.to_nat (Z.of_nat (length l) + k)) l.

(** [l[k:]] *)
Definition slice_from {A : Type} (l : list A) (k : Z) : list A :=
  if 0 <=? k then skipn (Z.to_nat k) l
  else skipn (Z.to_nat (Z.of_nat (length l) + k)) l.

(** [len(l)//2] *)
Definition half_len {A : Type} (l : list A) : Z := Z.of_nat (length l) / 2.

(** [sorted(l, key=key)]: the stable sort, ascending in [key]. *)
Fixpoint insert_by {A : Type} (key : A -> Z) (a : A) (l : list A) : list A :=
  match l with
  | [] => [a]
  | b :: t => if key a <=? key b then a :: b :: t else b :: insert_by key a t
  end.

Fixpoint sorted {A : Type} (key : A -> Z) (l : list A) : list A :=
  match l with
  | [] => []
  | a :: t => insert_by key a (sorted key t)
  end.

(** [enumerate(l)], with the indices as Python integers. *)
Definition enumerate {A : Type} (l : list A) : list (Z * A) :=
  combine (map Z.of_nat (seq 0 (length l))) l.

(** [range(n)] *)
Definition range (n : nat) : list Z := map Z.of_nat (seq 0 n).

(** ** Vocabulary of the statements *)

(** Order on scores, as propositions. *)
Definition slt (a b : Score) : Prop := score_ltb a b = true.
Definition sle (a b : Score) : Prop := score_ltb b a = false.

(** The bound after seeing [s]: lines 141-142 and 146-147. *)
Definition smax (a s : Score) : Score := if score_gtb s a then s else a.
Definition smin (a s : Score) : Score := if score_ltb s a then s else a.

(** The best score among [choices] for the side to move, starting from
    the worst score for that side. *)
Definition best_of (maximizer : bool) (choices : list (Move * Score)) : Score :=
  fold_left (fun acc c => if maximizer then smax acc (snd c) else smin acc (snd c))
            choices (if maximizer then NegInf else PosInf).

(** How the value [v] found with cutoffs under the bounds [lo] and [hi]
    stands to the value [m] of the search without cutoffs: exact inside
    the bounds, on the far side of [m] outside them. *)
Definition within (lo hi v m : Score) : Prop :=
  (slt v lo -> sle m v) /\ (slt hi v -> sle v m) /\ (sle lo v -> sle v hi -> m = v).

(** The last [n] entries of a list. *)
Definition last_entries {A : Type} (n : nat) (l : list A) : list A :=
  skipn (length l - n) l.

(** The exploration order in the words of the specification: for the
    maximizer, second half of the maximizer list, first half of the
    minimizer list, first half of the maximizer list, remainder of the
    minimizer list; for the minimizer, minimizer first half, maximizer
    second half, minimizer second half, maximizer first half. *)
Definition first_half {A : Type} (l : list A) : list A := slice_to l (half_len l).
Definition second_half {A : Type} (l : list A) : list A := slice_from l (half_len l).

Definition interleave_spec (maximizer : bool) (poss_x poss_o : list Cand)
  : list Cand :=
  if maximizer then
    second_half poss_o ++ first_half poss_x ++ first_half poss_o ++ second_half poss_x
  else
    first_half poss_x ++ second_half poss_o ++ second_half poss_x ++ first_half poss_o.

(** ** The board, as the search sees it *)

(** The methods of [Board] called from [players.py].  [TileState] is
    whatever [update_board] records about a tile so that [undo_change]
    can put it back. *)
Class BoardAPI (Board TileState : Type) : Type := {
  (** [board.tiles]: rows of tiles; only the shape is read *)
  tiles : Board -> list (list TileState);
  (** [board.check_legal(move)] *)
  check_legal : Board -> Move -> bool;
  (** [board.logic[tile_y][tile_x].get_value_mark(mark)] *)
  get_value_mark : Board -> Z -> Z -> Mark -> Z;
  (** [board.update_board(move, graphic=False)]: the board after the
      move and the list [orig_states] of [((tile_x, tile_y), state)] *)
  update_board : Board -> Move -> Board * list (Pos * TileState);
  (** [board.undo_change(orig_states, move)] *)
  undo_change : Board -> list (Pos * TileState) -> Move -> Board;
  (** [board.check_win(move)[0]] *)
  check_win : Board -> Move -> bool;
  (** [Board.score_board(board)] *)
  score_board : Board -> Z
}.

(** What the AI object and the board hold while a search runs. *)
Record AIState (Board : Type) : Type := mkState {
  board : Board;
  minimax_stack_depth : Z
}.
Arguments mkState {Board} _ _.
Arguments board {Board} _.
Arguments minimax_stack_depth {Board} _.

(** Outcome of a call: a value, a raised exception, or no answer within
    the given number of nested calls. *)
Inductive Exn : Type := ValueError.

Inductive Res (A : Type) : Type :=
| Ret (a : A)
| Raise (e : Exn)
| OutOfFuel.
Arguments Ret {A} _.
Arguments Raise {A} _.
Arguments OutOfFuel {A}.

Section Search.
Context {Board TileState : Type} `{API : BoardAPI Board TileState}.

Local Abbreviation State := (AIState Board).

(** *** [AI.get_possible_moves] *)

(** The double loop over [board.tiles] filling [possible_moves]. *)
Definition scan_row (b : Board) (mark : Mark) (tile_y : Z) (width : nat)
  : list Cand :=
  flat_map
    (fun tile_x =>
       if check_legal b (tile_x, tile_y, mark) then
         let score_X := get_value_mark b tile_y tile_x X in
         let score_O := get_value_mark b tile_y tile_x O in
         if negb (score_X =? 0) || negb (score_O =? 0)
         then [((score_X, score_O), (tile_x, tile_y, mark))]
         else []
       else [])
    (range width).

Definition possible_moves (b : Board) (mark : Mark) : list Cand :=
  flat_map (fun '(tile_y, row) => scan_row b mark tile_y (length row))
           (enumerate (tiles b)).

Definition get_possible_moves (st : State) (maximizer : bool)
  : (list Cand * list Cand) * State :=
  let mark := if maximizer then O else X in
  let pm := possible_moves (board st) mark in
  let x_fav := filter (fun move => key_x move <? 0) pm in
  let o_fav := filter (fun move => key_o move >? 0) pm in
  let x_fav := sorted key_x x_fav in
  let o_fav := sorted key_o o_fav in
  ((x_fav, o_fav), st).

(** *** [AI.minimax] *)

(** Lines 93-94: the cap on the two lists. *)
Definition cap_x (branch_factor : Z) (poss_x : list Cand) : list Cand :=
  slice_to poss_x (branch_factor / 2).

Definition cap_o (branch_factor : Z) (poss_o : list Cand) : list Cand :=
  slice_from poss_o ((- branch_factor) / 2).

(** Lines 97-100: the exploration order, from the capped lists. *)
Definition move_order (maximizer : bool) (poss_x poss_o : list Cand)
  : list Cand :=
  if maximizer then
    slice_from poss_o (half_len poss_o) ++ slice_to poss_x (half_len poss_x)
    ++ slice_to poss_o (half_len poss_o) ++ slice_from poss_x (half_len poss_o)
  else
    slice_to poss_x (half_len poss_x) ++ slice_from poss_o (half_len poss_o)
    ++ slice_from poss_x (half_len poss_x) ++ slice_to poss_o (half_len poss_o).

Definition nxt_mark_of (mark : Mark) : Mark :=
  if mark_eqb mark X then O else X.

(** Lines 119-130: the candidate lists handed to the next ply.  [b] is
    the board with [move] applied, [poss_x] and [poss_o] the capped
    lists of the current node. *)
Definition retag (nxt_mark : Mark) (poss : Cand) : Cand :=
  (fst poss, (fst (fst (snd poss)), snd (fst (snd poss)), nxt_mark)).

Definition new_poss_moves (b : Board) (orig_states : list (Pos * TileState))
    (move : Move) (poss_x poss_o : list Cand) : list Cand * list Cand :=
  let nxt_mark := nxt_mark_of (snd move) in
  let fresh :=
    map (fun '((tile_x, tile_y), _) =>
           ((get_value_mark b tile_y tile_x X, get_value_mark b tile_y tile_x O),
            (tile_x, tile_y, nxt_mark)))
        orig_states in
  let x_fav := filter (fun poss => key_x poss <? 0) fresh in
  let o_fav := filter (fun poss => key_o poss >? 0) fresh in
  let x_fav :=
    map (retag nxt_mark)
        (filter (fun poss => negb (move_eqb (snd poss) move))
                (sorted key_x (poss_x ++ x_fav))) in
  let o_fav :=
    map (retag nxt_mark)
        (filter (fun poss => negb (move_eqb (snd poss) move))
                (sorted key_o (poss_o ++ o_fav))) in
  (x_fav, o_fav).

(** [max(choices, key=lambda x: x[1])] and [min(...)]: the first
    extremal element; [ValueError] on the empty list. *)
Fixpoint first_best (better : Score -> Score -> bool)
    (cur : Move * Score) (l : list (Move * Score)) : Move * Score :=
  match l with
  | [] => cur
  | c :: t => first_best better (if better (snd c) (snd cur) then c else cur) t
  end.

Definition extremal (maximizer : bool) (choices : list (Move * Score))
  : Res (Move * Score) :=
  match choices with
  | [] => Raise ValueError
  | c :: t => Ret (first_best (if maximizer then score_gtb else score_ltb) c t)
  end.

(** State of the [for] loop of [minimax] between two iterations. *)
Record LoopState : Type := mkLoop {
  choices : list (Move * Score);
  max_worst : Score;
  min_worst : Score;
  ai : State
}.

(** How one iteration ends: on to the next candidate, [break], or
    leaving the function (by [return] or by an exception). *)
Inductive Flow : Type :=
| Next (s : LoopState)
| Break (s : LoopState)
| Leave (r : Res (Move * Score)) (st : State).

Section Body.
(** The recursive call of line 133, with the arguments it is given:
    [maximizer], [depth], [poss_moves], [max_worst], [min_worst]. *)
Variable rec : bool -> Z -> list Cand * list Cand -> Score -> Score ->
               State -> Res (Move * Score) * State.
(** [cutoff] says whether the two [break] tests of lines 139 and 144
    are in force; in the program they always are. *)
Variable cutoff : bool.
Variables (maximizer : bool) (depth : Z) (poss_x poss_o : list Cand).

(** Lines 115-133: the score of the position reached by [move], on the
    board [b1] that has the move applied. *)
Definition nxt_ply (move : Move) (b1 : Board)
    (orig_states : list (Pos * TileState)) (s : LoopState) (st2 : State)
  : Res Score * State :=
  if depth =? 1 then (Ret (Num (score_board b1)), st2)
  else
    match rec (negb maximizer) (depth - 1)
              (new_poss_moves b1 orig_states move poss_x poss_o)
              (max_worst s) (min_worst s) st2 with
    | (Ret (_, nxt_ply_score), st') => (Ret nxt_ply_score, st')
    | (Raise e, st') => (Raise e, st')
    | (OutOfFuel, st') => (OutOfFuel, st')
    end.

(** Lines 135-147: record the choice, undo the move, then cut off or
    tighten the bound of the side to move. *)
Definition record_choice (move : Move) (nxt_ply_score : Score)
    (orig_states : list (Pos * TileState)) (s : LoopState) (st3 : State)
  : Flow :=
  let choices' := choices s ++ [(move, nxt_ply_score)] in
  let st4 := mkState (undo_change (board st3) orig_states move)
                     (minimax_stack_depth st3) in
  if maximizer then
    if cutoff && score_gtb nxt_ply_score (min_worst s) then
      Break (mkLoop choices' (max_worst s) (min_worst s) st4)
    else
      Next (mkLoop choices'
                   (if score_gtb nxt_ply_score (max_worst s)
                    then nxt_ply_score else max_worst s)
                   (min_worst s) st4)
  else
    if cutoff && score_ltb nxt_ply_score (max_worst s) then
      Break (mkLoop choices' (max_worst s) (min_worst s) st4)
    else
      Next (mkLoop choices' (max_worst s)
                   (if score_ltb nxt_ply_score (min_worst s)
                    then nxt_ply_score else min_worst s)
                   st4).

(** Lines 106-147: one iteration, for the candidate [cand]. *)
Definition loop_body (cand : Cand) (s : LoopState) : Flow :=
  let move := snd cand in
  let st1 := mkState (board (ai s)) (minimax_stack_depth (ai s) + 1) in
  let '(b1, orig_states) := update_board (board st1) move in
  if check_win b1 move then
    Leave (Ret (move, if negb maximizer then NegInf else PosInf))
          (mkState (undo_change b1 orig_states move) (minimax_stack_depth st1))
  else
    let st2 := mkState b1 (minimax_stack_depth st1) in
    let '(r, st3) := nxt_ply move b1 orig_states s st2 in
    match r with
    | Ret nxt_ply_score => record_choice move nxt_ply_score orig_states s st3
    | Raise e => Leave (Raise e) st3
    | OutOfFuel => Leave OutOfFuel st3
    end.

(** The [for] loop over [poss]. *)
Fixpoint for_loop (poss : list Cand) (s : LoopState) : Flow :=
  match poss with
  | [] => Next s
  | cand :: rest =>
      match loop_body cand s with
      | Next s' => for_loop rest s'
      | fl => fl
      end
  end.

(** Lines 150-153, reached when the loop ends or breaks. *)
Definition after_loop (fl : Flow) : Res (Move * Score) * State :=
  match fl with
  | Next s | Break s => (extremal maximizer (choices s), ai s)
  | Leave r st => (r, st)
  end.

End Body.

(** Default of the parameter [branch_factor] of [minimax]. *)
Definition default_branch_factor : Z := 10.

(** [self.minimax(board, maximizer, depth, branch_factor, poss_moves,
    max_worst, min_worst)].  [fuel] bounds the nesting of calls. The
    recursive call passes no [branch_factor]. *)
Fixpoint minimax_with (cutoff : bool) (fuel : nat) (maximizer : bool)
    (depth : Z) (branch_factor : Z) (poss_moves : list Cand * list Cand)
    (max_worst min_worst : Score) (st : State)
  : Res (Move * Score) * State :=
  match fuel with
  | 0%nat => (OutOfFuel, st)
  | S fuel' =>
      let poss_x := cap_x branch_factor (fst poss_moves) in
      let poss_o := cap_o branch_factor (snd poss_moves) in
      let poss := move_order maximizer poss_x poss_o in
      after_loop maximizer
        (for_loop
           (fun m d pm mw nw s =>
              minimax_with cutoff fuel' m d default_branch_factor pm mw nw s)
           cutoff maximizer depth poss_x poss_o poss
           (mkLoop [] max_worst min_worst st))
  end.

(** The method as written. *)
Definition minimax := minimax_with true.

(** The same search with the two [break] tests taken out. *)
Definition minimax_exhaustive := minimax_with false.

(** *** [AI.get_move] *)

Definition get_move (fuel : nat) (self_mark : Mark) (depth : Z)
    (branch_factor : Z) (st : State) : Res Move * State :=
  let maximizer := mark_eqb self_mark O in
  let '((poss_x, poss_o), st) := get_possible_moves st maximizer in
  let poss_x := slice_to poss_x (branch_factor / 2) in
  let poss_o := slice_from poss_o ((- branch_factor) / 2) in
  match minimax fuel maximizer depth branch_factor (poss_x, poss_o)
                NegInf PosInf st with
  | (Ret (move, _), st') => (Ret move, mkState (board st') 0)
  | (Raise e, st') => (Raise e, st')
  | (OutOfFuel, st') => (OutOfFuel, st')
  end.

(** What holds between two iterations of the loop of a node searched
    with cutoffs (state [sP]) and without (state [sE]), both entered
    with the same board; [lo] and [hi] are the bounds the node was
    called with. *)
Definition loop_inv (maximizer : bool) (lo hi : Score) (sE sP : LoopState)
  : Prop :=
  board (ai sE) = board (ai sP) /\
  length (choices sE) = length (choices sP) /\
  sle lo hi /\
  (let vP := best_of maximizer (choices sP) in
   let mE := best_of maximizer (choices sE) in
   if maximizer then
     (max_worst sP = smax lo vP /\ min_worst sP = hi /\ sle vP hi /\
      (slt vP lo -> sle mE vP) /\ (sle lo vP -> mE = vP))
   else
     (min_worst sP = smin hi vP /\ max_worst sP = lo /\ sle lo vP /\
      (slt hi vP -> sle vP mE) /\ (sle vP hi -> mE = vP))).

(** The state a loop outcome carries. *)
Definition flow_state (fl : Flow) : State :=
  match fl with
  | Next s | Break s => ai s
  | Leave _ st => st
  end.

(** [c] is the entry of a tile of [b.tiles] on which [mark] may legally
    be placed and whose two heuristic components are not both zero. *)
Definition informative_legal (b : Board) (mark : Mark) (c : Cand) : Prop :=
  exists (tile_y tile_x : nat) (row : list TileState),
    nth_error (tiles b) tile_y = Some row /\
    (tile_x < length row)%nat /\
    check_legal b (Z.of_nat tile_x, Z.of_nat tile_y, mark) = true /\
    c = ((get_value_mark b (Z.of_nat tile_y) (Z.of_nat tile_x) X,
          get_value_mark b (Z.of_nat tile_y) (Z.of_nat tile_x) O),
         (Z.of_nat tile_x, Z.of_nat tile_y, mark)) /\
    (get_value_mark b (Z.of_nat tile_y) (Z.of_nat tile_x) X <> 0 \/
     get_value_mark b (Z.of_nat tile_y) (Z.of_nat tile_x) O <> 0).

(** A loop outcome that has not failed leaves the board [b]. *)
Definition flow_keeps (b : Board) (fl : Flow) : Prop :=
  match fl with
  | Next s | Break s => board (ai s) = b
  | Leave (Ret _) st => board st = b
  | Leave _ _ => True
  end.

End Search.

(** ** A concrete board: one row of tiles, three in a row wins *)

(** Modelled from the spec: the class [Board] of module [board] is not
    among the sources, so this is one board meeting the contract the
    specification gives for it (legality of a move, a heuristic pair per
    tile with negative values favouring [X] and positive ones [O], apply
    returning the previous state of the tiles it changed, undo, win
    through the placed mark, static evaluation).  It is used to run the
    search on explicit positions.  A tile is [None] while free.  The
    value of a tile for a mark counts the neighbouring tiles holding that
    mark; the static score weighs each placed mark by its column. *)
Module Strip.

Definition Board : Type := list (option Mark).

Definition cell (b : Board) (i : Z) : option Mark :=
  if i <? 0 then None
  else match nth_error b (Z.to_nat i) with
       | Some c => c
       | None => None
       end.

Definition in_board (b : Board) (tile_x tile_y : Z) : bool :=
  (tile_y =? 0) && (0 <=? tile_x) && (tile_x <? Z.of_nat (length b)).

Fixpoint set_cell (b : Board) (i : nat) (c : option Mark) : Board :=
  match b, i with
  | [], _ => []
  | _ :: t, 0%nat => c :: t
  | a :: t, S j => a :: set_cell t j c
  end.

Definition holds (b : Board) (i : Z) (m : Mark) : bool :=
  match cell b i with
  | Some m' => mark_eqb m' m
  | None => false
  end.

Definition check_legal (b : Board) (move : Move) : bool :=
  let '(tile_x, tile_y, _) := move in
  in_board b tile_x tile_y &&
  match cell b tile_x with None => true | Some _ => false end.

Definition get_value_mark (b : Board) (tile_y tile_x : Z) (m : Mark) : Z :=
  if in_board b tile_x tile_y then
    let n := (if holds b (tile_x - 1) m then 1 else 0)
             + (if holds b (tile_x + 1) m then 1 else 0) in
    match m with X => - n | O => n end
  else 0.

Definition update_board (b : Board) (move : Move)
  : Board * list (Pos * option Mark) :=
  let '(tile_x, tile_y, m) := move in
  if in_board b tile_x tile_y
  then (set_cell b (Z.to_nat tile_x) (Some m), [((tile_x, tile_y), cell b tile_x)])
  else (b, []).

Definition undo_change (b : Board) (orig_states : list (Pos * option Mark))
    (move : Move) : Board :=
  fold_left (fun acc '((tile_x, _), c) => set_cell acc (Z.to_nat tile_x) c)
            orig_states b.

Definition three (b : Board) (i : Z) (m : Mark) : bool :=
  holds b i m && holds b (i + 1) m && holds b (i + 2) m.

Definition check_win (b : Board) (move : Move) : bool :=
  let '(tile_x, _, m) := move in
  three b (tile_x - 2) m || three b (tile_x - 1) m || three b tile_x m.

Fixpoint weigh (b : Board) (col : Z) : Z :=
  match b with
  | [] => 0
  | None :: t => weigh t (col + 1)
  | Some O :: t => col + weigh t (col + 1)
  | Some X :: t => - col + weigh t (col + 1)
  end.

Definition score_board (b : Board) : Z := weigh b 1.

End Strip.

#[global] Instance strip_api : BoardAPI Strip.Board (option Mark) := {|
  tiles := fun b => [b];
  check_legal := Strip.check_legal;
  get_value_mark := Strip.get_value_mark;
  update_board := Strip.update_board;
  undo_change := Strip.undo_change;
  check_win := Strip.check_win;
  score_board := Strip.score_board
|}.


(** ** Work below the root *)

(** The most candidates a nested call of depth [k] can examine, itself
    and the calls below it: each nested node runs with the default
    branch factor. *)
Fixpoint nested_work (k : nat) : Z :=
  match k with
  | 0%nat => 0
  | S k' => default_branch_factor * (1 + nested_work k')
  end.

(** ** Order of the candidate lists *)

(** The candidate lists of a node are in order for the side [mark]:
    each list ascending in its component, the first with negative first
    components, the second with positive second components, every entry
    carrying [mark]. *)
Definition lists_ordered (mark : Mark) (pm : list Cand * list Cand) : Prop :=
  StronglySorted (fun u v => key_x u <= key_x v) (fst pm) /\
  StronglySorted (fun u v => key_o u <= key_o v) (snd pm) /\
  Forall (fun c => key_x c < 0 /\ snd (snd c) = mark) (fst pm) /\
  Forall (fun c => key_o c > 0 /\ snd (snd c) = mark) (snd pm).

(** ** Players and the game loop

    [Player.__init__], [AI.__init__], [Player.get_move] and the loop of
    [main] in [tic_tac_toe.py].  Mouse clicks are pixel coordinates with
    integer values, read from a list standing for the clicks to come;
    [board.tile_size] is a further attribute of the board; reading the
    start-up parameters, opening the window and drawing are left out,
    and [update_board] acts on the board as it does during search. *)
Module Game.

(** [Player]: the attributes set by [Player.__init__]. *)
Record Player : Type := mkPlayer {
  moves : list Move;
  score : Z;
  mark : Mark;
  player_num : Z
}.

(** [AI]: a player with its configured depth and branch factor
    ([minimax_stack_depth] lives in [AIState]). *)
Record AI : Type := mkAI {
  player : Player;
  minimax_depth : Z;
  branch_factor : Z
}.

(** [Player.__init__], with the class attribute [Player.PlayerNumber]
    passed in and out. *)
Definition Player_init (PlayerNumber : Z) : Player * Z :=
  (mkPlayer [] 0 (if PlayerNumber =? 0 then O else X) PlayerNumber,
   PlayerNumber + 1).

(** [AI.__init__] *)
Definition AI_init (depth branch_factor : Z) (PlayerNumber : Z) : AI * Z :=
  let '(p, n) := Player_init PlayerNumber in
  (mkAI p depth branch_factor, n).

(** [k] players created one after the other. *)
Fixpoint create_players (k : nat) (PlayerNumber : Z) : list Player * Z :=
  match k with
  | 0%nat => ([], PlayerNumber)
  | S k' =>
      let '(p, n) := Player_init PlayerNumber in
      let '(ps, n') := create_players k' n in
      (p :: ps, n')
  end.

(** Lines 22-29 of [main]: the two players of a game, created in a
    fresh process. *)
Definition setup (play_AI : bool) (minimax_depth branch_factor : Z)
  : Player * (Player + AI) :=
  let '(player1, n) := Player_init 0 in
  if play_AI then
    let '(player2, _) := AI_init minimax_depth branch_factor n in
    (player1, inr player2)
  else
    let '(player2, _) := Player_init n in
    (player1, inl player2).

(** What a wait for a human move yields: a move, a division by a zero
    tile size, or no click left to read. *)
Inductive Input (A : Type) : Type :=
| Got (a : A)
| ZeroDivision
| NoMoreClicks.
Arguments Got {A} _.
Arguments ZeroDivision {A}.
Arguments NoMoreClicks {A}.

(** How a game stands when the loop is left or the rounds run out. *)
Inductive Ending : Type :=
| Wins (player : Z)
| DivisionByZero
| SearchRaises (e : Exn)
| SearchOutOfFuel
| AwaitingClick
| StillPlaying.

Section Loop.
Context {Board TileState : Type} `{API : BoardAPI Board TileState}.

(** [board.tile_size] *)
Variable tile_size : Board -> Z.

(** [Player.get_move]: mouse clicks, as pixel coordinates, are read
    until one falls on a tile where the move is legal. *)
Fixpoint Player_get_move (self : Player) (b : Board) (clicks : list (Z * Z))
  : Input Move * list (Z * Z) :=
  match clicks with
  | [] => (NoMoreClicks, [])
  | (x, y) :: rest =>
      if tile_size b =? 0 then (ZeroDivision, rest)
      else
        let tile_x := x / tile_size b in
        let tile_y := y / tile_size b in
        let move := (tile_x, tile_y, mark self) in
        if check_legal b move then (Got move, rest)
        else Player_get_move self b rest
  end.

(** Lines 39-48 of [main]: the move of the side whose turn it is. *)
Definition take_turn (fuel : nat) (player1 : Player) (player2 : Player + AI)
    (turn : Z) (st : AIState Board) (clicks : list (Z * Z))
  : (Move + Ending) * AIState Board * list (Z * Z) :=
  let human p :=
    match Player_get_move p (board st) clicks with
    | (Got move, rest) => (inl move, st, rest)
    | (ZeroDivision, rest) => (inr DivisionByZero, st, rest)
    | (NoMoreClicks, rest) => (inr AwaitingClick, st, rest)
    end in
  if turn mod 2 =? 0 then human player1
  else
    match player2 with
    | inr a =>
        match get_move fuel (mark (player a)) (minimax_depth a) (branch_factor a) st with
        | (Ret move, st') => (inl move, st', clicks)
        | (Raise e, st') => (inr (SearchRaises e), st', clicks)
        | (OutOfFuel, st') => (inr SearchOutOfFuel, st', clicks)
        end
    | inl p => human p
    end.

(** Lines 36-58 of [main]: the loop, for at most [rounds] moves.
    [played] records each board handed to [update_board] with the move
    applied to it. *)
Fixpoint main_loop (rounds fuel : nat) (player1 : Player) (player2 : Player + AI)
    (turn : Z) (st : AIState Board) (clicks : list (Z * Z))
    (played : list (Board * Move))
  : Ending * AIState Board * list (Board * Move) :=
  match rounds with
  | 0%nat => (StillPlaying, st, played)
  | S rounds' =>
      match take_turn fuel player1 player2 turn st clicks with
      | (inr e, st', _) => (e, st', played)
      | (inl move, st', clicks') =>
          let '(b2, changed) := update_board (board st') move in
          let played' := played ++ [(board st', move)] in
          let st2 := mkState b2 (minimax_stack_depth st') in
          if check_win b2 move then
            (Wins (2 - (if turn mod 2 =? 0 then 1 else 0)), st2, played')
          else
            main_loop rounds' fuel player1 player2 (turn + 1) st2 clicks' played'
      end
  end.

(** The mark of the second player. *)
Definition mark2 (player2 : Player + AI) : Mark :=
  match player2 with
  | inl p => mark p
  | inr a => mark (player a)
  end.

(** [played] is a well-played stretch of a game that stands at [turn]
    on the board [b]: each recorded board is the one the moves before it
    produce, and each move is legal on its board and carries the mark of
    the side whose turn it is. *)
Fixpoint played_in_turn (mark1 mark2 : Mark) (turn : Z) (b : Board)
    (played : list (Board * Move)) : Prop :=
  match played with
  | [] => True
  | (b0, move) :: rest =>
      b0 = b /\ check_legal b move = true /\
      snd move = (if turn mod 2 =? 0 then mark1 else mark2) /\
      played_in_turn mark1 mark2 (turn + 1) (fst (update_board b move)) rest
  end.

(** [main], from the creation of the players on, on the board [b]. *)
Definition main (rounds fuel : nat) (play_AI : bool)
    (minimax_depth branch_factor : Z) (b : Board) (clicks : list (Z * Z))
  : Ending * AIState Board * list (Board * Move) :=
  let '(player1, player2) := setup play_AI minimax_depth branch_factor in
  main_loop rounds fuel player1 player2 0 (mkState b 0) clicks [].

End Loop.

End Game.

(** ** Positions used in the examples *)

(** Candidate entries on the strip: column, heuristic pair, mark. *)
Definition entry (sx so tile_x : Z) (m : Mark) : Cand :=
  ((sx, so), (tile_x, 0, m)).

(** Three maximizer-favoring entries, in ascending order. *)
Definition three_o : list Cand :=
  [entry 0 1 1 O; entry 0 2 2 O; entry 0 3 3 O].

(** A board where only the minimizer's list is populated. *)
Definition x_only_board : Strip.Board :=
  [None; Some X; None; None; Some X; None; None; Some X; None].

Definition x_only_list : list Cand :=
  [entry (-1) 0 0 O; entry (-1) 0 2 O; entry (-1) 0 3 O;
   entry (-1) 0 5 O; entry (-1) 0 6 O; entry (-1) 0 8 O].

(** A position where the maximizer has just taken the middle tile. *)
Definition played_start : Strip.Board := [Some O; None; None].
Definition played_move : Move := (1, 0, O).

(** The empty strip: no tile has a non-zero heuristic. *)
Definition quiet_board : Strip.Board := [None; None; None; None].

(** The maximizer can complete three in a row at column 2; column 5
    is its other candidate. *)
Definition two_in_row : Strip.Board :=
  [Some O; Some O; None; Some X; Some O; None].

Definition two_in_row_lists : list Cand * list Cand :=
  ([entry (-1) 1 2 O], [entry (-1) 1 2 O; entry 0 1 5 O]).

(** An opening with two candidates for the minimizer's list and one for
    the maximizer's. *)
Definition opening : Strip.Board := [Some O; None; None; Some X; None].

Definition opening_lists : list Cand * list Cand :=
  ([entry (-1) 0 2 O; entry (-1) 0 4 O], [entry 0 1 1 O]).

(** A position on eleven tiles where the cutoff saves work. *)
Definition midgame : Strip.Board :=
  [None; Some O; None; None; Some X; None; None; Some O; None; Some X; None].

Definition midgame_lists : list Cand * list Cand :=
  fst (get_possible_moves (mkState midgame 0) true).

(** Tiles ten pixels wide. *)
Definition ten_pixels : Strip.Board -> Z := fun _ => 10.

(** Empty strips of five and of seven tiles. *)
Definition empty5 : Strip.Board := [None; None; None; None; None].
Definition empty7 : Strip.Board := [None; None; None; None; None; None; None].

(** Clicks of two humans taking turns on [empty5]; the first player
    completes columns 0 to 2. *)
Definition two_humans_clicks : list (Z * Z) :=
  [(5, 5); (45, 5); (15, 5); (35, 5); (25, 5)].

(** Clicks of a human playing the AI on [empty7]; the third click falls
    on a tile the AI has taken. *)
Definition against_ai_clicks : list (Z * Z) :=
  [(5, 5); (35, 5); (45, 5); (25, 5); (65, 5)].

(** The second player of a process, and clicks of which the first three
    miss every free tile of [opening]. *)
Definition second_player : Game.Player := fst (Game.Player_init 1).

Definition stray_clicks : list (Z * Z) :=
  [(5, 3); (35, 2); (-4, 0); (12, 4); (20, 20)].

(** A winning candidate alone in the lists. *)
Definition winning_only : list Cand * list Cand := ([], [entry (-1) 1 2 O]).

(** One entry in each list; the tile of the second has a neighbour of
    either mark on [midgame]. *)
Definition two_sided_lists : list Cand * list Cand :=
  ([entry (-1) 0 3 O], [entry (-1) 1 8 O]).

(** * Properties *)

(** ** Lists, slices and sorting *)

Section ListFacts.
Context {A : Type}.
Implicit Types (l : list A) (k : Z).

Lemma slice_to_nonneg l k : 0 <= k -> slice_to l k = firstn (Z.to_nat k) l.
Proof.
  intros Hk. unfold slice_to.
  destruct (0 <=? k) eqn:E; [reflexivity | apply Z.leb_gt in E; lia].
Qed.

Lemma slice_from_nonneg l k : 0 <= k -> slice_from l k = skipn (Z.to_nat k) l.
Proof.
  intros Hk. unfold slice_from.
  destruct (0 <=? k) eqn:E; [reflexivity | apply Z.leb_gt in E; lia].
Qed.

Lemma slice_from_neg l k :
  k < 0 -> slice_from l k = last_entries (Z.to_nat (- k)) l.
Proof.
  intros Hk. unfold slice_from, last_entries.
  destruct (0 <=? k) eqn:E; [apply Z.leb_le in E; lia |].
  f_equal. lia.
Qed.

Lemma slice_to_nil k : slice_to (@nil A) k = [].
Proof. unfold slice_to. destruct (0 <=? k); apply firstn_nil. Qed.

Lemma slice_from_nil k : slice_from (@nil A) k = [].
Proof. unfold slice_from. destruct (0 <=? k); apply skipn_nil. Qed.

Lemma half_len_bounds l :
  0 <= half_len l /\ 2 * half_len l <= Z.of_nat (length l) <= 2 * half_len l + 1.
Proof.
  unfold half_len. pose proof (Z.div_mod (Z.of_nat (length l)) 2 ltac:(lia)).
  pose proof (Z.mod_pos_bound (Z.of_nat (length l)) 2 ltac:(lia)).
  split; [apply Z.div_pos; lia | lia].
Qed.

Lemma halves_rejoin l : first_half l ++ second_half l = l.
Proof.
  unfold first_half, second_half.
  destruct (half_len_bounds l) as [H _].
  rewrite slice_to_nonneg, slice_from_nonneg by exact H.
  apply firstn_skipn.
Qed.

Lemma length_slice_to_half l :
  length (slice_to l (half_len l)) = Z.to_nat (half_len l).
Proof.
  destruct (half_len_bounds l) as [H0 H1].
  rewrite slice_to_nonneg by exact H0.
  rewrite length_firstn. lia.
Qed.

Lemma length_slice_from_half l (n : Z) :
  0 <= n -> length (slice_from l n) = (length l - Z.to_nat n)%nat.
Proof.
  intros Hn. rewrite slice_from_nonneg by exact Hn. apply length_skipn.
Qed.

Lemma insert_by_In (key : A -> Z) a l x :
  In x (insert_by key a l) <-> x = a \/ In x l.
Proof.
  induction l as [| b t IH]; simpl.
  - intuition.
  - destruct (key a <=? key b); simpl; [intuition | rewrite IH; intuition].
Qed.

Lemma sorted_In (key : A -> Z) l x : In x (sorted key l) <-> In x l.
Proof.
  induction l as [| a t IH]; simpl; [tauto |].
  rewrite insert_by_In, IH. intuition.
Qed.

Lemma insert_by_perm (key : A -> Z) a l : Permutation (a :: l) (insert_by key a l).
Proof.
  induction l as [| b t IH]; simpl; [apply Permutation_refl |].
  destruct (key a <=? key b); [apply Permutation_refl |].
  eapply perm_trans; [apply perm_swap | apply perm_skip, IH].
Qed.

Lemma sorted_perm (key : A -> Z) l : Permutation l (sorted key l).
Proof.
  induction l as [| a t IH]; simpl; [constructor |].
  eapply perm_trans; [apply perm_skip, IH | apply insert_by_perm].
Qed.

Lemma insert_by_sorted (key : A -> Z) a l :
  StronglySorted (fun u v => key u <= key v) l ->
  StronglySorted (fun u v => key u <= key v) (insert_by key a l).
Proof.
  induction 1 as [| b t Ht IH Hb]; simpl.
  - constructor; constructor.
  - destruct (key a <=? key b) eqn:E.
    + apply Z.leb_le in E. constructor; [constructor; assumption |].
      constructor; [exact E |].
      rewrite Forall_forall in *. intros y Hy. specialize (Hb y Hy). lia.
    + apply Z.leb_gt in E. constructor; [exact IH |].
      rewrite Forall_forall in *. intros y Hy.
      apply insert_by_In in Hy. destruct Hy as [-> | Hy]; [lia | auto].
Qed.

Lemma sorted_sorted (key : A -> Z) l :
  StronglySorted (fun u v => key u <= key v) (sorted key l).
Proof.
  induction l as [| a t IH]; simpl; [constructor | apply insert_by_sorted, IH].
Qed.

Lemma enumerate_from_In (l : list A) (s : nat) (i : Z) (a : A) :
  In (i, a) (combine (map Z.of_nat (seq s (length l))) l) <->
  exists n, i = Z.of_nat (s + n) /\ nth_error l n = Some a.
Proof.
  revert s. induction l as [| b t IH]; intros s; simpl.
  - split; [tauto | intros [[|n] [_ H]]; discriminate].
  - rewrite IH. split.
    + intros [H | [n [Hi Hn]]].
      * inversion H; subst. exists 0%nat. split; [f_equal; lia | reflexivity].
      * exists (S n). split; [rewrite Hi; f_equal; lia | exact Hn].
    + intros [[|n] [Hi Hn]]; simpl in Hn.
      * left. inversion Hn; subst. f_equal. f_equal. lia.
      * right. exists n. split; [rewrite Hi; f_equal; lia | exact Hn].
Qed.

Lemma enumerate_In (l : list A) (i : Z) (a : A) :
  In (i, a) (enumerate l) <-> exists n, i = Z.of_nat n /\ nth_error l n = Some a.
Proof. unfold enumerate. rewrite enumerate_from_In. reflexivity. Qed.

End ListFacts.

Lemma range_In (n : nat) (i : Z) : In i (range n) <-> 0 <= i < Z.of_nat n.
Proof.
  unfold range. rewrite in_map_iff. split.
  - intros [k [<- Hk]]. apply in_seq in Hk. lia.
  - intros Hi. exists (Z.to_nat i). split; [lia | apply in_seq; lia].
Qed.

(** ** The cap and the exploration order *)

Lemma cap_x_firstn (B : Z) (poss_x : list Cand) :
  1 <= B -> cap_x B poss_x = firstn (Z.to_nat (B / 2)) poss_x.
Proof.
  intros HB. unfold cap_x. apply slice_to_nonneg. apply Z.div_pos; lia.
Qed.

Lemma neg_half_is_ceiling (B : Z) : - ((- B) / 2) = (B + 1) / 2.
Proof.
  pose proof (Z.div_mod (- B) 2 ltac:(lia)).
  pose proof (Z.mod_pos_bound (- B) 2 ltac:(lia)).
  pose proof (Z.div_mod (B + 1) 2 ltac:(lia)).
  pose proof (Z.mod_pos_bound (B + 1) 2 ltac:(lia)).
  lia.
Qed.

Lemma cap_o_last (B : Z) (poss_o : list Cand) :
  1 <= B -> cap_o B poss_o = last_entries (Z.to_nat ((B + 1) / 2)) poss_o.
Proof.
  intros HB. unfold cap_o.
  pose proof (neg_half_is_ceiling B) as Hc.
  assert ((B + 1) / 2 >= 1).
  { pose proof (Z.div_mod (B + 1) 2 ltac:(lia)).
    pose proof (Z.mod_pos_bound (B + 1) 2 ltac:(lia)). lia. }
  rewrite slice_from_neg by lia. rewrite Hc. reflexivity.
Qed.

Lemma halves_sum (B : Z) : B / 2 + (B + 1) / 2 = B.
Proof.
  pose proof (Z.div_mod B 2 ltac:(lia)).
  pose proof (Z.mod_pos_bound B 2 ltac:(lia)).
  pose proof (Z.div_mod (B + 1) 2 ltac:(lia)).
  pose proof (Z.mod_pos_bound (B + 1) 2 ltac:(lia)).
  lia.
Qed.

Lemma move_order_length (maximizer : bool) (poss_x poss_o : list Cand) (B : Z) :
  1 <= B ->
  Z.of_nat (length poss_x) <= B / 2 ->
  Z.of_nat (length poss_o) <= (B + 1) / 2 ->
  Z.of_nat (length (move_order maximizer poss_x poss_o)) <= B.
Proof.
  intros HB Hx Ho.
  destruct (half_len_bounds poss_x) as [Hx0 Hx1].
  destruct (half_len_bounds poss_o) as [Ho0 Ho1].
  pose proof (halves_sum B) as Hs.
  pose proof (Z.div_mod B 2 ltac:(lia)) as Hd.
  pose proof (Z.mod_pos_bound B 2 ltac:(lia)) as Hm.
  unfold move_order. destruct maximizer; rewrite !length_app;
    rewrite !length_slice_to_half, !length_slice_from_half by assumption;
    lia.
Qed.

(** The order of the minimizer's branch is the one the specification
    words; the maximizer's agrees with it when the two half-lengths
    coincide. *)
Lemma move_order_minimizer (poss_x poss_o : list Cand) :
  move_order false poss_x poss_o = interleave_spec false poss_x poss_o.
Proof. reflexivity. Qed.

Lemma move_order_maximizer_same_half (poss_x poss_o : list Cand) :
  half_len poss_o = half_len poss_x ->
  move_order true poss_x poss_o = interleave_spec true poss_x poss_o.
Proof.
  intros H. unfold move_order, interleave_spec, first_half, second_half.
  rewrite H. reflexivity.
Qed.

Lemma mark_eqb_eq (a b : Mark) : mark_eqb a b = true <-> a = b.
Proof. destruct a, b; simpl; split; congruence. Qed.

Lemma move_eqb_eq (a b : Move) : move_eqb a b = true <-> a = b.
Proof.
  destruct a as [[ax ay] am], b as [[bx by_] bm]. unfold move_eqb.
  rewrite !andb_true_iff, !Z.eqb_eq, mark_eqb_eq.
  split; [intros [[-> ->] ->]; reflexivity | intros H; inversion H; auto].
Qed.

Lemma nxt_mark_differs (m : Mark) : nxt_mark_of m <> m.
Proof. destruct m; discriminate. Qed.

(** ** Candidate generation *)

Section Candidates.
Context {Board TileState : Type} `{API : BoardAPI Board TileState}.
Implicit Types (b : Board) (st : AIState Board) (c : Cand).

Lemma scan_row_In b mark tile_y width c :
  In c (scan_row b mark tile_y width) <->
  exists tile_x, 0 <= tile_x < Z.of_nat width /\
    check_legal b (tile_x, tile_y, mark) = true /\
    c = ((get_value_mark b tile_y tile_x X, get_value_mark b tile_y tile_x O),
         (tile_x, tile_y, mark)) /\
    (get_value_mark b tile_y tile_x X <> 0 \/ get_value_mark b tile_y tile_x O <> 0).
Proof.
  unfold scan_row. rewrite in_flat_map. split.
  - intros [tx [Hr Hc]]. apply range_In in Hr. exists tx.
    destruct (check_legal b (tx, tile_y, mark)); [| contradiction].
    destruct (get_value_mark b tile_y tx X =? 0) eqn:EX;
      destruct (get_value_mark b tile_y tx O =? 0) eqn:EO; simpl in Hc;
      try contradiction; destruct Hc as [<- | []];
      rewrite ?Z.eqb_eq, ?Z.eqb_neq in *; auto.
  - intros [tx [Hr [Hl [-> Hnz]]]]. exists tx. split; [apply range_In, Hr |].
    rewrite Hl.
    destruct (get_value_mark b tile_y tx X =? 0) eqn:EX;
      destruct (get_value_mark b tile_y tx O =? 0) eqn:EO; simpl;
      rewrite ?Z.eqb_eq, ?Z.eqb_neq in *; auto.
    lia.
Qed.

Lemma possible_moves_In b mark c :
  In c (possible_moves b mark) <-> informative_legal b mark c.
Proof.
  unfold possible_moves, informative_legal. rewrite in_flat_map. split.
  - intros [[ty row] [He Hc]]. apply enumerate_In in He.
    destruct He as [n [-> Hn]]. apply scan_row_In in Hc.
    destruct Hc as [tx [Hr [Hl [-> Hnz]]]].
    exists n, (Z.to_nat tx), row.
    rewrite Z2Nat.id by lia. repeat split; auto; lia.
  - intros [ty [tx [row [Hn [Hlt [Hl [-> Hnz]]]]]]].
    exists (Z.of_nat ty, row). split.
    + apply enumerate_In. exists ty. auto.
    + apply scan_row_In. exists (Z.of_nat tx). repeat split; auto; lia.
Qed.

(** C8. [AI.get_possible_moves] returns the pair (minimizer-favoring
    list, maximizer-favoring list): an entry is listed only for a tile
    where placing the side's mark is legal and whose two heuristic
    components are not both zero; the first list holds exactly those with
    negative first component, in ascending order of it, the second
    exactly those with positive second component, in ascending order of
    it; the board is the one passed in. *)
Theorem get_possible_moves_lists st (maximizer : bool) :
  snd (get_possible_moves st maximizer) = st /\
  (forall c, In c (fst (fst (get_possible_moves st maximizer))) <->
             informative_legal (board st) (if maximizer then O else X) c /\ key_x c < 0) /\
  (forall c, In c (snd (fst (get_possible_moves st maximizer))) <->
             informative_legal (board st) (if maximizer then O else X) c /\ key_o c > 0) /\
  StronglySorted (fun u v => key_x u <= key_x v)
                 (fst (fst (get_possible_moves st maximizer))) /\
  StronglySorted (fun u v => key_o u <= key_o v)
                 (snd (fst (get_possible_moves st maximizer))).
Proof.
  unfold get_possible_moves; simpl.
  split; [reflexivity |].
  split; [| split; [| split; apply sorted_sorted]].
  - intros c. rewrite sorted_In, filter_In, possible_moves_In, Z.ltb_lt.
    reflexivity.
  - intros c. rewrite sorted_In, filter_In, possible_moves_In, Z.gtb_lt.
    split; intros [H1 H2]; (split; [exact H1 | lia]).
Qed.

(** *** The lists handed to the next ply *)

Lemma retag_mark (m : Mark) c : snd (snd (retag m c)) = m.
Proof. reflexivity. Qed.

Lemma new_poss_moves_x_In b orig move poss_x poss_o c :
  In c (fst (new_poss_moves b orig move poss_x poss_o)) <->
  exists c0, c = retag (nxt_mark_of (snd move)) c0 /\ snd c0 <> move /\
    (In c0 poss_x \/
     key_x c0 < 0 /\
     exists tile_x tile_y old, In ((tile_x, tile_y), old) orig /\
       c0 = ((get_value_mark b tile_y tile_x X, get_value_mark b tile_y tile_x O),
             (tile_x, tile_y, nxt_mark_of (snd move)))).
Proof.
  unfold new_poss_moves; simpl. rewrite in_map_iff. split.
  - intros [c0 [<- H]]. exists c0. split; [reflexivity |].
    apply filter_In in H. destruct H as [H Hne].
    apply negb_true_iff in Hne. split.
    { intros E. apply move_eqb_eq in E. congruence. }
    apply sorted_In, in_app_or in H. destruct H as [H | H]; [left; exact H |].
    right. apply filter_In in H. destruct H as [H Hk].
    split; [apply Z.ltb_lt, Hk |].
    apply in_map_iff in H. destruct H as [[[tx ty] old] [<- H]].
    exists tx, ty, old. auto.
  - intros [c0 [-> [Hne H]]]. exists c0. split; [reflexivity |].
    apply filter_In. split.
    + apply sorted_In, in_or_app. destruct H as [H | [Hk [tx [ty [old [H ->]]]]]].
      * left; exact H.
      * right. apply filter_In. split; [| apply Z.ltb_lt, Hk].
        apply in_map_iff. exists ((tx, ty), old). auto.
    + apply negb_true_iff. destruct (move_eqb (snd c0) move) eqn:E; [| reflexivity].
      apply move_eqb_eq in E. contradiction.
Qed.

Lemma new_poss_moves_o_In b orig move poss_x poss_o c :
  In c (snd (new_poss_moves b orig move poss_x poss_o)) <->
  exists c0, c = retag (nxt_mark_of (snd move)) c0 /\ snd c0 <> move /\
    (In c0 poss_o \/
     key_o c0 > 0 /\
     exists tile_x tile_y old, In ((tile_x, tile_y), old) orig /\
       c0 = ((get_value_mark b tile_y tile_x X, get_value_mark b tile_y tile_x O),
             (tile_x, tile_y, nxt_mark_of (snd move)))).
Proof.
  unfold new_poss_moves; simpl. rewrite in_map_iff. split.
  - intros [c0 [<- H]]. exists c0. split; [reflexivity |].
    apply filter_In in H. destruct H as [H Hne].
    apply negb_true_iff in Hne. split.
    { intros E. apply move_eqb_eq in E. congruence. }
    apply sorted_In, in_app_or in H. destruct H as [H | H]; [left; exact H |].
    right. apply filter_In in H. destruct H as [H Hk].
    split; [apply Z.gtb_lt in Hk; lia |].
    apply in_map_iff in H. destruct H as [[[tx ty] old] [<- H]].
    exists tx, ty, old. auto.
  - intros [c0 [-> [Hne H]]]. exists c0. split; [reflexivity |].
    apply filter_In. split.
    + apply sorted_In, in_or_app. destruct H as [H | [Hk [tx [ty [old [H ->]]]]]].
      * left; exact H.
      * right. apply filter_In. split; [| apply Z.gtb_lt; simpl in *; lia].
        apply in_map_iff. exists ((tx, ty), old). auto.
    + apply negb_true_iff. destruct (move_eqb (snd c0) move) eqn:E; [| reflexivity].
      apply move_eqb_eq in E. contradiction.
Qed.

Lemma retag_differs (move : Move) c0 :
  snd (retag (nxt_mark_of (snd move)) c0) <> move.
Proof.
  intros E. apply (nxt_mark_differs (snd move)).
  rewrite <- E at 2. reflexivity.
Qed.

End Candidates.

Lemma perm_filter {A : Type} (f : A -> bool) (l l' : list A) :
  Permutation l l' -> Permutation (filter f l) (filter f l').
Proof.
  induction 1 as [| x l l' H IH | x y l | l l' l'' H1 IH1 H2 IH2]; simpl.
  - constructor.
  - destruct (f x); [apply perm_skip |]; exact IH.
  - destruct (f x), (f y); try apply Permutation_refl.
    apply perm_swap.
  - eapply perm_trans; eassumption.
Qed.

Lemma filter_keeps_all {A : Type} (f : A -> bool) (l : list A) :
  (forall x, In x l -> f x = true) -> filter f l = l.
Proof.
  induction l as [| a l IH]; simpl; intros H; [reflexivity |].
  rewrite (H a (or_introl eq_refl)). f_equal. apply IH. auto.
Qed.

Lemma map_fixes_all {A : Type} (g : A -> A) (l : list A) :
  (forall x, In x l -> g x = x) -> map g l = l.
Proof.
  induction l as [| a l IH]; simpl; intros H; [reflexivity |].
  rewrite (H a (or_introl eq_refl)). f_equal. apply IH. auto.
Qed.

Section NextPly.
Context {Board TileState : Type} `{API : BoardAPI Board TileState}.
Implicit Types (b : Board) (c : Cand) (move : Move).

Lemma retag_fixes_marked (m : Mark) c : snd (snd c) = m -> retag m c = c.
Proof. destruct c as [h [[x y] m']]. simpl. intros ->. reflexivity. Qed.

Lemma other_mark_is_other_move move c :
  snd (snd c) = nxt_mark_of (snd move) ->
  negb (move_eqb (snd c) move) = true.
Proof.
  intros Hm. apply negb_true_iff.
  destruct (move_eqb (snd c) move) eqn:E; [| reflexivity].
  apply move_eqb_eq in E. rewrite E in Hm.
  exfalso. apply (nxt_mark_differs (snd move)). auto.
Qed.

(** C7. The two lists handed to the call one ply deeper never hold the
    move just played.  Each is, up to the order the sort gives it, the
    inherited list with every entry of the played move taken out and the
    rest re-marked for the next mover, followed by the recomputed entries
    that pass the sign test.  No entry equals the played move, and when
    the inherited entries carry the mover's mark, as they do at every
    node, an entry found on the tile just played is a recomputed one,
    never an inherited one. *)
Theorem next_ply_lists_exclude_played_move
    b (orig : list (Pos * TileState)) move (poss_x poss_o : list Cand) :
  let nxt := nxt_mark_of (snd move) in
  let others := filter (fun poss : Cand => negb (move_eqb (snd poss) move)) in
  let fresh :=
    map (fun '((tile_x, tile_y), _) =>
           ((get_value_mark b tile_y tile_x X, get_value_mark b tile_y tile_x O),
            (tile_x, tile_y, nxt)))
        orig in
  Permutation (fst (new_poss_moves b orig move poss_x poss_o))
              (map (retag nxt) (others poss_x)
               ++ filter (fun poss => key_x poss <? 0) fresh) /\
  Permutation (snd (new_poss_moves b orig move poss_x poss_o))
              (map (retag nxt) (others poss_o)
               ++ filter (fun poss => key_o poss >? 0) fresh) /\
  (forall c, In c (fst (new_poss_moves b orig move poss_x poss_o)) \/
             In c (snd (new_poss_moves b orig move poss_x poss_o)) ->
             snd c <> move) /\
  (Forall (fun c0 => snd (snd c0) = snd move) (poss_x ++ poss_o) ->
   forall c, In c (fst (new_poss_moves b orig move poss_x poss_o)) \/
             In c (snd (new_poss_moves b orig move poss_x poss_o)) ->
             fst (snd c) = fst move ->
             In c fresh).
Proof.
  intros nxt others fresh.
  assert (Hfresh : forall c, In c fresh -> snd (snd c) = nxt).
  { intros c Hc. apply in_map_iff in Hc.
    destruct Hc as [[[tx ty] old] [<- _]]. reflexivity. }
  assert (Hperm : forall (key : Cand -> Z) (f : Cand -> bool) (l : list Cand),
             Permutation
               (map (retag nxt) (others (sorted key (l ++ filter f fresh))))
               (map (retag nxt) (others l) ++ filter f fresh)).
  { intros key f l.
    eapply perm_trans.
    - apply Permutation_map, perm_filter, Permutation_sym, sorted_perm.
    - unfold others. rewrite filter_app, map_app.
      rewrite (filter_keeps_all _ (filter f fresh)).
      + rewrite (map_fixes_all (retag nxt) (filter f fresh));
          [apply Permutation_refl |].
        intros c Hc. apply filter_In in Hc. apply retag_fixes_marked, Hfresh, Hc.
      + intros c Hc. apply filter_In in Hc.
        apply other_mark_is_other_move, Hfresh, Hc. }
  split; [apply (Hperm key_x) |]. split; [apply (Hperm key_o) |].
  split.
  - intros c [H | H];
      [apply new_poss_moves_x_In in H | apply new_poss_moves_o_In in H];
      destruct H as [c0 [-> _]]; apply retag_differs.
  - intros Hmarks c Hc Hpos. rewrite Forall_forall in Hmarks.
    assert (Hin : In c (map (retag nxt) (others poss_x) ++ filter (fun poss => key_x poss <? 0) fresh) \/
                  In c (map (retag nxt) (others poss_o) ++ filter (fun poss => key_o poss >? 0) fresh)).
    { destruct Hc as [Hc | Hc]; [left | right];
        (eapply Permutation_in; [| exact Hc]);
        [apply (Hperm key_x) | apply (Hperm key_o)]. }
    assert (Hold : forall l, (forall c0, In c0 l -> In c0 (poss_x ++ poss_o)) ->
                             In c (map (retag nxt) (others l)) -> False).
    { intros l Hl Hm. apply in_map_iff in Hm. destruct Hm as [c0 [<- Hc0]].
      apply filter_In in Hc0. destruct Hc0 as [Hc0 Hne].
      apply negb_true_iff in Hne.
      assert (E : snd c0 = move).
      { specialize (Hmarks c0 (Hl c0 Hc0)). simpl in Hpos.
        destruct c0 as [h [[x y] m]], move as [[mx my] mm]. simpl in *.
        inversion Hpos; subst. reflexivity. }
      apply move_eqb_eq in E. congruence. }
    destruct Hin as [Hin | Hin]; apply in_app_or in Hin;
      destruct Hin as [Hin | Hin];
      try (apply filter_In in Hin; exact (proj1 Hin)); exfalso.
    + apply (Hold poss_x); [intros; apply in_or_app; auto | exact Hin].
    + apply (Hold poss_o); [intros; apply in_or_app; auto | exact Hin].
Qed.

(** C10. Every entry of the lists built for the next ply carries the
    next mover's mark, and an affected tile enters them on the sign of
    its heuristic component alone: nothing asks whether the tile is
    free. *)
Theorem next_ply_lists_skip_legality
    b (orig : list (Pos * TileState)) move (poss_x poss_o : list Cand) :
  (forall c, In c (fst (new_poss_moves b orig move poss_x poss_o)) \/
             In c (snd (new_poss_moves b orig move poss_x poss_o)) ->
             snd (snd c) = nxt_mark_of (snd move)) /\
  (forall tile_x tile_y old, In ((tile_x, tile_y), old) orig ->
     (get_value_mark b tile_y tile_x X < 0 ->
      In ((get_value_mark b tile_y tile_x X, get_value_mark b tile_y tile_x O),
          (tile_x, tile_y, nxt_mark_of (snd move)))
         (fst (new_poss_moves b orig move poss_x poss_o))) /\
     (get_value_mark b tile_y tile_x O > 0 ->
      In ((get_value_mark b tile_y tile_x X, get_value_mark b tile_y tile_x O),
          (tile_x, tile_y, nxt_mark_of (snd move)))
         (snd (new_poss_moves b orig move poss_x poss_o)))).
Proof.
  split.
  - intros c [H | H];
      [apply new_poss_moves_x_In in H | apply new_poss_moves_o_In in H];
      destruct H as [c0 [-> _]]; apply retag_mark.
  - intros tx ty old Hin.
    set (c0 := ((get_value_mark b ty tx X, get_value_mark b ty tx O),
                (tx, ty, nxt_mark_of (snd move))) : Cand).
    assert (Hne : snd c0 <> move).
    { intros E. apply (nxt_mark_differs (snd move)). rewrite <- E at 2.
      reflexivity. }
    split; intros Hs.
    + apply new_poss_moves_x_In. exists c0. split; [reflexivity |].
      split; [exact Hne |]. right. split; [exact Hs |].
      exists tx, ty, old. auto.
    + apply new_poss_moves_o_In. exists c0. split; [reflexivity |].
      split; [exact Hne |]. right. split; [exact Hs |].
      exists tx, ty, old. auto.
Qed.

End NextPly.

(** On the strip, after the maximizer takes the middle tile next to its
    own mark, that very tile is offered to the minimizer one ply deeper
    although it is occupied. *)
Lemma next_ply_lists_skip_legality_witness :
  In (entry 0 1 1 X)
     (snd (new_poss_moves (fst (update_board played_start played_move))
                          (snd (update_board played_start played_move))
                          played_move [] [])) /\
  check_legal (fst (update_board played_start played_move)) (1, 0, X) = false /\
  Strip.cell (fst (update_board played_start played_move)) 1 = Some O.
Proof.
  split; [| split; reflexivity].
  destruct (next_ply_lists_skip_legality
              (fst (update_board played_start played_move))
              (snd (update_board played_start played_move))
              played_move [] []) as [_ H].
  destruct (H 1 0 None) as [_ Ho].
  - vm_compute. left. reflexivity.
  - apply Ho. vm_compute. reflexivity.
Defined.

(** Playing column 1 of [opening]: the inherited entry of that move is
    gone from the maximizer-favoring list, whose only entry is the
    recomputed one. *)
Lemma next_ply_lists_exclude_played_move_witness :
  fst (new_poss_moves (fst (update_board opening played_move))
         (snd (update_board opening played_move)) played_move
         (fst opening_lists) (snd opening_lists))
  = [entry (-1) 0 2 X; entry (-1) 0 4 X] /\
  snd (new_poss_moves (fst (update_board opening played_move))
         (snd (update_board opening played_move)) played_move
         (fst opening_lists) (snd opening_lists))
  = [entry 0 1 1 X] /\
  In (entry 0 1 1 X)
     (map (fun '((tile_x, tile_y), _) =>
             ((get_value_mark (fst (update_board opening played_move)) tile_y tile_x X,
               get_value_mark (fst (update_board opening played_move)) tile_y tile_x O),
              (tile_x, tile_y, nxt_mark_of (snd played_move))))
          (snd (update_board opening played_move))).
Proof.
  split; [reflexivity |]. split; [reflexivity |].
  apply (proj2 (proj2 (proj2 (next_ply_lists_exclude_played_move
           (fst (update_board opening played_move))
           (snd (update_board opening played_move)) played_move
           (fst opening_lists) (snd opening_lists))))).
  - vm_compute. repeat constructor.
  - right. vm_compute. left. reflexivity.
  - reflexivity.
Defined.

(** ** The loop of [minimax] *)

Section LoopFacts.
Context {Board TileState : Type} `{API : BoardAPI Board TileState}.

Local Abbreviation State := (AIState Board).
Local Abbreviation Call :=
  (bool -> Z -> list Cand * list Cand -> Score -> Score ->
   State -> Res (Move * Score) * State).

Implicit Types (rec : Call) (s : @LoopState Board) (st : State) (cand : Cand).

Lemma loop_body_unfold rec cutoff maximizer depth poss_x poss_o cand s :
  loop_body rec cutoff maximizer depth poss_x poss_o cand s =
  let move := snd cand in
  let b1 := fst (update_board (board (ai s)) move) in
  let orig := snd (update_board (board (ai s)) move) in
  let cnt := minimax_stack_depth (ai s) + 1 in
  if check_win b1 move then
    Leave (Ret (move, if negb maximizer then NegInf else PosInf))
          (mkState (undo_change b1 orig move) cnt)
  else
    match fst (nxt_ply rec maximizer depth poss_x poss_o move b1 orig s
                       (mkState b1 cnt)) with
    | Ret v =>
        record_choice cutoff maximizer move v orig s
          (snd (nxt_ply rec maximizer depth poss_x poss_o move b1 orig s
                        (mkState b1 cnt)))
    | Raise e =>
        Leave (Raise e)
          (snd (nxt_ply rec maximizer depth poss_x poss_o move b1 orig s
                        (mkState b1 cnt)))
    | OutOfFuel =>
        Leave OutOfFuel
          (snd (nxt_ply rec maximizer depth poss_x poss_o move b1 orig s
                        (mkState b1 cnt)))
    end.
Proof.
  unfold loop_body; simpl.
  destruct (update_board (board (ai s)) (snd cand)) as [b1 orig]; simpl.
  destruct (check_win b1 (snd cand)); [reflexivity |].
  destruct (nxt_ply _ _ _ _ _ _ _ _ _ _) as [r st3]; reflexivity.
Qed.

Lemma for_loop_app rec cutoff maximizer depth poss_x poss_o pre post s :
  for_loop rec cutoff maximizer depth poss_x poss_o (pre ++ post) s =
  match for_loop rec cutoff maximizer depth poss_x poss_o pre s with
  | Next s' => for_loop rec cutoff maximizer depth poss_x poss_o post s'
  | fl => fl
  end.
Proof.
  revert s. induction pre as [| c pre IH]; intros s; simpl; [reflexivity |].
  destruct (loop_body _ _ _ _ _ _ c s); auto.
Qed.

Lemma after_loop_state maximizer (fl : @Flow Board) :
  snd (after_loop maximizer fl) = flow_state fl.
Proof. destruct fl; reflexivity. Qed.

Lemma record_choice_counter cutoff maximizer move v orig s st3 :
  minimax_stack_depth (flow_state (record_choice cutoff maximizer move v orig s st3))
  = minimax_stack_depth st3.
Proof.
  unfold record_choice.
  destruct maximizer;
    [destruct (cutoff && score_gtb v (min_worst s))
    | destruct (cutoff && score_ltb v (max_worst s))]; reflexivity.
Qed.

Lemma record_choice_board cutoff maximizer move v orig s st3 :
  board (flow_state (record_choice cutoff maximizer move v orig s st3))
  = undo_change (board st3) orig move.
Proof.
  unfold record_choice.
  destruct maximizer;
    [destruct (cutoff && score_gtb v (min_worst s))
    | destruct (cutoff && score_ltb v (max_worst s))]; reflexivity.
Qed.

Lemma record_choice_not_leave cutoff maximizer move v orig s st3 r st :
  record_choice cutoff maximizer move v orig s st3 <> Leave r st.
Proof.
  unfold record_choice.
  destruct maximizer;
    [destruct (cutoff && score_gtb v (min_worst s))
    | destruct (cutoff && score_ltb v (max_worst s))]; discriminate.
Qed.

(** At the last ply an iteration counts once and calls nothing. *)
Lemma loop_body_depth1_counter rec cutoff maximizer poss_x poss_o cand s :
  minimax_stack_depth
    (flow_state (loop_body rec cutoff maximizer 1 poss_x poss_o cand s))
  = minimax_stack_depth (ai s) + 1.
Proof.
  rewrite loop_body_unfold; simpl.
  destruct (check_win _ _); [reflexivity |].
  unfold nxt_ply; simpl. apply record_choice_counter.
Qed.

Lemma for_loop_depth1_counter rec cutoff maximizer poss_x poss_o poss s :
  minimax_stack_depth
    (flow_state (for_loop rec cutoff maximizer 1 poss_x poss_o poss s))
  <= minimax_stack_depth (ai s) + Z.of_nat (length poss).
Proof.
  revert s. induction poss as [| c poss IH]; intros s; simpl; [lia |].
  pose proof (loop_body_depth1_counter rec cutoff maximizer poss_x poss_o c s) as Hc.
  destruct (loop_body rec cutoff maximizer 1 poss_x poss_o c s) as [s' | s' | r st'];
    simpl in *; [specialize (IH s') | |]; lia.
Qed.

Lemma move_order_nil maximizer : move_order maximizer [] [] = [].
Proof. destruct maximizer; reflexivity. Qed.

Lemma length_cap_x (B : Z) (poss_x : list Cand) :
  1 <= B -> Z.of_nat (length (cap_x B poss_x)) <= B / 2.
Proof.
  intros HB. rewrite cap_x_firstn by exact HB. rewrite length_firstn.
  assert (0 <= B / 2) by (apply Z.div_pos; lia). lia.
Qed.

Lemma length_cap_o (B : Z) (poss_o : list Cand) :
  1 <= B -> Z.of_nat (length (cap_o B poss_o)) <= (B + 1) / 2.
Proof.
  intros HB. rewrite cap_o_last by exact HB. unfold last_entries.
  rewrite length_skipn.
  assert (0 <= (B + 1) / 2) by (apply Z.div_pos; lia). lia.
Qed.

Lemma minimax_with_S cutoff fuel maximizer depth B
    (pm : list Cand * list Cand) mw nw st :
  minimax_with cutoff (S fuel) maximizer depth B pm mw nw st =
  after_loop maximizer
    (for_loop (fun m d p lo hi st' =>
                 minimax_with cutoff fuel m d default_branch_factor p lo hi st')
              cutoff maximizer depth (cap_x B (fst pm)) (cap_o B (snd pm))
              (move_order maximizer (cap_x B (fst pm)) (cap_o B (snd pm)))
              (mkLoop [] mw nw st)).
Proof. reflexivity. Qed.

(** C5, as the code has it.  With a cap [B >= 1] a node keeps the first
    [B/2] entries (rounded down) of the minimizer-favoring list and the
    last [B/2] entries rounded up of the maximizer-favoring list; the
    exploration order built from them has at most [B] entries, and a
    node at the last ply counts at most [B] evaluated candidates. *)
Theorem branch_cap_bounds_node (B : Z) (poss_x poss_o : list Cand)
    (maximizer : bool) :
  1 <= B ->
  cap_x B poss_x = firstn (Z.to_nat (B / 2)) poss_x /\
  cap_o B poss_o = last_entries (Z.to_nat ((B + 1) / 2)) poss_o /\
  Z.of_nat (length (move_order maximizer (cap_x B poss_x) (cap_o B poss_o))) <= B /\
  (forall fuel mw nw st,
     minimax_stack_depth
       (snd (minimax fuel maximizer 1 B (poss_x, poss_o) mw nw st))
     <= minimax_stack_depth st + B).
Proof.
  intros HB.
  assert (Hlen : Z.of_nat (length (move_order maximizer (cap_x B poss_x)
                                               (cap_o B poss_o))) <= B).
  { apply move_order_length; [exact HB | apply length_cap_x, HB
                             | apply length_cap_o, HB]. }
  split; [apply cap_x_firstn, HB |].
  split; [apply cap_o_last, HB |].
  split; [exact Hlen |].
  intros [| fuel] mw nw st; [simpl; lia |].
  unfold minimax. rewrite minimax_with_S, after_loop_state.
  etransitivity; [apply for_loop_depth1_counter |]. simpl in *. lia.
Qed.

Lemma cap_x_idempotent (B : Z) (l : list Cand) :
  1 <= B -> cap_x B (slice_to l (B / 2)) = slice_to l (B / 2).
Proof.
  intros HB. assert (0 <= B / 2) by (apply Z.div_pos; lia).
  unfold cap_x. rewrite !slice_to_nonneg by assumption.
  rewrite firstn_firstn, Nat.min_id. reflexivity.
Qed.

Lemma cap_o_idempotent (B : Z) (l : list Cand) :
  1 <= B -> cap_o B (slice_from l ((- B) / 2)) = slice_from l ((- B) / 2).
Proof.
  intros HB. fold (cap_o B l). rewrite !cap_o_last by exact HB.
  unfold last_entries at 1. rewrite (proj2 (Nat.sub_0_le _ _)); [reflexivity |].
  unfold last_entries. rewrite length_skipn. lia.
Qed.

Lemma nested_work_nonneg (k : nat) : 0 <= nested_work k.
Proof.
  induction k as [| k IH]; cbn [nested_work]; [lia |].
  unfold default_branch_factor. lia.
Qed.

Section NestedNode.
Variable rec : Call.
Variables (cutoff maximizer : bool) (depth : Z) (poss_x poss_o : list Cand).
Variable K : Z.
Hypothesis K_nonneg : 0 <= K.
Hypothesis rec_bounded : depth <> 1 -> forall m pm lo hi st,
  minimax_stack_depth (snd (rec m (depth - 1) pm lo hi st))
  <= minimax_stack_depth st + K.

Lemma loop_body_counter_bound cand s :
  minimax_stack_depth
    (flow_state (loop_body rec cutoff maximizer depth poss_x poss_o cand s))
  <= minimax_stack_depth (ai s) + (1 + K).
Proof.
  rewrite loop_body_unfold; cbv zeta.
  destruct (check_win _ _); [cbn [flow_state minimax_stack_depth fst snd ai board]; lia |].
  set (b1 := fst (update_board (board (ai s)) (snd cand))).
  set (orig := snd (update_board (board (ai s)) (snd cand))).
  assert (Hn : minimax_stack_depth
                 (snd (nxt_ply rec maximizer depth poss_x poss_o (snd cand) b1 orig s
                         (mkState b1 (minimax_stack_depth (ai s) + 1))))
               <= minimax_stack_depth (ai s) + (1 + K)).
  { unfold nxt_ply. destruct (depth =? 1) eqn:D; [cbn [flow_state minimax_stack_depth fst snd ai board]; lia |].
    apply Z.eqb_neq in D.
    match goal with
    | |- context [rec ?m ?d ?pm ?a ?b ?st0] =>
        pose proof (rec_bounded D m pm a b st0) as Hg;
        destruct (rec m d pm a b st0) as [[[mv sc] | e |] st1]
    end; cbn [flow_state minimax_stack_depth fst snd ai board] in *; lia. }
  destruct (fst (nxt_ply _ _ _ _ _ _ _ _ _ _)) as [v | e |];
    [rewrite record_choice_counter | cbn [flow_state minimax_stack_depth fst snd ai board] | cbn [flow_state minimax_stack_depth fst snd ai board]]; exact Hn.
Qed.

Lemma for_loop_counter_bound poss s :
  minimax_stack_depth
    (flow_state (for_loop rec cutoff maximizer depth poss_x poss_o poss s))
  <= minimax_stack_depth (ai s) + Z.of_nat (length poss) * (1 + K).
Proof.
  revert s. induction poss as [| c poss IH]; intros s.
  - cbn [for_loop length flow_state]. lia.
  - cbn [for_loop length]. pose proof (loop_body_counter_bound c s) as Hc.
    destruct (loop_body rec cutoff maximizer depth poss_x poss_o c s)
      as [s' | s' | r st0]; cbn [flow_state minimax_stack_depth fst snd ai board] in Hc |- *; [specialize (IH s') | |]; nia.
Qed.

End NestedNode.

(** A search of depth [depth] under the cap [B] examines at most [B]
    candidates at its own node and, below each, what nested calls
    running with the default branch factor can examine. *)
Lemma minimax_with_counter_bound cutoff fuel :
  forall maximizer depth B pm lo hi st,
    1 <= depth -> 1 <= B ->
    minimax_stack_depth (snd (minimax_with cutoff fuel maximizer depth B pm lo hi st))
    <= minimax_stack_depth st + B * (1 + nested_work (Z.to_nat (depth - 1))).
Proof.
  induction fuel as [| fuel IH]; intros maximizer depth B pm lo hi st Hd HB.
  - pose proof (nested_work_nonneg (Z.to_nat (depth - 1))). cbn [minimax_with snd]. nia.
  - rewrite minimax_with_S, after_loop_state.
    pose proof (nested_work_nonneg (Z.to_nat (depth - 1))) as HK.
    etransitivity.
    + apply (for_loop_counter_bound _ cutoff maximizer depth _ _
               (nested_work (Z.to_nat (depth - 1))) HK).
      intros D m p a b st0.
      etransitivity; [apply (IH m (depth - 1) default_branch_factor);
                      [lia | unfold default_branch_factor; lia] |].
      replace (Z.to_nat (depth - 1)) with (S (Z.to_nat (depth - 1 - 1))) by lia.
      cbn [nested_work]. lia.
    + assert (Hlen : Z.of_nat (length (move_order maximizer (cap_x B (fst pm))
                                                  (cap_o B (snd pm)))) <= B).
      { apply move_order_length; [exact HB | apply length_cap_x, HB
                                 | apply length_cap_o, HB]. }
      cbn [ai]. nia.
Qed.

(** C9. The cap passed to [minimax] is used for the lists of that call
    only: the nested call runs with the default 10.  So two caps that
    keep the same entries at the root give the same search, both for
    [minimax] and for [get_move]; and a search of depth [depth] under
    the cap [B] examines at most [B] candidates at the root and, below
    each of them, only what nodes capped at 10 can examine, whatever
    [B] is. *)
Theorem branch_factor_applies_at_root_only :
  (forall fuel maximizer depth B pm mw nw st,
     minimax (S fuel) maximizer depth B pm mw nw st =
     after_loop maximizer
       (for_loop (fun m d p lo hi st' => minimax fuel m d 10 p lo hi st')
                 true maximizer depth (cap_x B (fst pm)) (cap_o B (snd pm))
                 (move_order maximizer (cap_x B (fst pm)) (cap_o B (snd pm)))
                 (mkLoop [] mw nw st))) /\
  (forall fuel maximizer depth B B' pm mw nw st,
     cap_x B (fst pm) = cap_x B' (fst pm) ->
     cap_o B (snd pm) = cap_o B' (snd pm) ->
     minimax fuel maximizer depth B pm mw nw st =
     minimax fuel maximizer depth B' pm mw nw st) /\
  (forall fuel self_mark depth B B' st,
     1 <= B -> 1 <= B' ->
     slice_to (fst (fst (get_possible_moves st (mark_eqb self_mark O)))) (B / 2) =
     slice_to (fst (fst (get_possible_moves st (mark_eqb self_mark O)))) (B' / 2) ->
     slice_from (snd (fst (get_possible_moves st (mark_eqb self_mark O)))) ((- B) / 2) =
     slice_from (snd (fst (get_possible_moves st (mark_eqb self_mark O)))) ((- B') / 2) ->
     get_move fuel self_mark depth B st = get_move fuel self_mark depth B' st) /\
  (forall fuel maximizer depth B pm mw nw st,
     1 <= depth -> 1 <= B ->
     minimax_stack_depth (snd (minimax fuel maximizer depth B pm mw nw st))
     <= minimax_stack_depth st + B * (1 + nested_work (Z.to_nat (depth - 1)))).
Proof.
  assert (Hroot : forall fuel maximizer depth B B' pm mw nw st,
             cap_x B (fst pm) = cap_x B' (fst pm) ->
             cap_o B (snd pm) = cap_o B' (snd pm) ->
             minimax fuel maximizer depth B pm mw nw st =
             minimax fuel maximizer depth B' pm mw nw st).
  { intros [| fuel] maximizer depth B B' pm mw nw st Hx Ho; [reflexivity |].
    unfold minimax. rewrite !minimax_with_S, Hx, Ho. reflexivity. }
  split; [reflexivity |]. split; [exact Hroot |].
  split; [| intros fuel; apply minimax_with_counter_bound].
  intros fuel self_mark depth B B' st HB HB' Hx Ho.
  unfold get_move.
  destruct (get_possible_moves st (mark_eqb self_mark O)) as [[px po] st0].
  cbn [fst snd] in Hx, Ho.
  rewrite (Hroot fuel (mark_eqb self_mark O) depth B B'
                 (slice_to px (B / 2), slice_from po ((- B) / 2))).
  - rewrite Hx, Ho. reflexivity.
  - cbn [fst]. rewrite cap_x_idempotent by exact HB.
    rewrite Hx. rewrite cap_x_idempotent by exact HB'. reflexivity.
  - cbn [snd]. rewrite cap_o_idempotent by exact HB.
    rewrite Ho. rewrite cap_o_idempotent by exact HB'. reflexivity.
Qed.

(** C3, as the code has it.  With both candidate lists empty the loop
    body never runs, [choices] stays empty and the final [max]/[min]
    raises [ValueError]; the board is not touched and no static
    evaluation is made. *)
Theorem empty_lists_raise fuel maximizer depth B mw nw st :
  minimax (S fuel) maximizer depth B ([], []) mw nw st = (Raise ValueError, st).
Proof.
  unfold minimax. rewrite minimax_with_S; simpl. unfold cap_x, cap_o.
  rewrite slice_to_nil, slice_from_nil, move_order_nil. simpl.
  destruct maximizer; reflexivity.
Qed.

End LoopFacts.

(** ** The board is put back *)

Section Undo.
Context {Board TileState : Type} `{API : BoardAPI Board TileState}.

Local Abbreviation State := (AIState Board).
Local Abbreviation Call :=
  (bool -> Z -> list Cand * list Cand -> Score -> Score ->
   State -> Res (Move * Score) * State).

Implicit Types (s : @LoopState Board) (st : State) (cand : Cand).

(** [undo_change] exactly reverses the [update_board] it is paired with. *)
Hypothesis undo_exact : forall (b : Board) (move : Move),
  undo_change (fst (update_board b move)) (snd (update_board b move)) move = b.

Section OneNode.
Variable rec : Call.
Hypothesis rec_keeps : forall m d pm lo hi st r st',
  rec m d pm lo hi st = (Ret r, st') -> board st' = board st.
Variables (cutoff maximizer : bool) (depth : Z) (poss_x poss_o : list Cand).

Lemma nxt_ply_board move b1 orig s st2 v :
  fst (nxt_ply rec maximizer depth poss_x poss_o move b1 orig s st2) = Ret v ->
  board (snd (nxt_ply rec maximizer depth poss_x poss_o move b1 orig s st2))
  = board st2.
Proof.
  unfold nxt_ply. destruct (depth =? 1); [reflexivity |].
  destruct (rec _ _ _ _ _ st2) as [[[mv sc] | e |] st'] eqn:E; simpl;
    try discriminate.
  intros _. eapply rec_keeps, E.
Qed.

Lemma loop_body_board cand s :
  flow_keeps (board (ai s))
             (loop_body rec cutoff maximizer depth poss_x poss_o cand s).
Proof.
  rewrite loop_body_unfold; simpl.
  destruct (check_win _ _); [simpl; apply undo_exact |].
  destruct (fst (nxt_ply _ _ _ _ _ _ _ _ _ _)) as [v | e |] eqn:E;
    simpl; try exact I.
  apply nxt_ply_board in E. simpl in E.
  pose proof (record_choice_board cutoff maximizer (snd cand) v
                (snd (update_board (board (ai s)) (snd cand))) s
                (snd (nxt_ply rec maximizer depth poss_x poss_o (snd cand)
                        (fst (update_board (board (ai s)) (snd cand)))
                        (snd (update_board (board (ai s)) (snd cand))) s
                        (mkState (fst (update_board (board (ai s)) (snd cand)))
                                 (minimax_stack_depth (ai s) + 1))))) as Hb.
  rewrite E, undo_exact in Hb.
  destruct (record_choice _ _ _ _ _ _ _) as [s' | s' | r st'] eqn:Er;
    simpl in *; try exact Hb.
  exfalso. eapply record_choice_not_leave, Er.
Qed.

Lemma for_loop_board poss s :
  flow_keeps (board (ai s))
             (for_loop rec cutoff maximizer depth poss_x poss_o poss s).
Proof.
  revert s. induction poss as [| c poss IH]; intros s; simpl; [reflexivity |].
  pose proof (loop_body_board c s) as Hc.
  destruct (loop_body rec cutoff maximizer depth poss_x poss_o c s)
    as [s' | s' | r st'] eqn:E; simpl in Hc; try exact Hc.
  rewrite <- Hc. apply IH.
Qed.

Lemma after_loop_board (fl : @Flow Board) b r st' :
  flow_keeps b fl -> after_loop maximizer fl = (Ret r, st') -> board st' = b.
Proof.
  destruct fl as [s | s | [r0 | e |] st0]; simpl; intros Hk Ha;
    inversion Ha; subst; reflexivity.
Qed.

End OneNode.

Lemma minimax_with_board cutoff fuel :
  forall maximizer depth B pm lo hi st r st',
    minimax_with cutoff fuel maximizer depth B pm lo hi st = (Ret r, st') ->
    board st' = board st.
Proof.
  induction fuel as [| fuel IH]; intros maximizer depth B pm lo hi st r st' H.
  - discriminate.
  - rewrite minimax_with_S in H.
    eapply after_loop_board in H; [exact H |].
    apply (for_loop_board _ (fun m d p lo' hi' st0 r0 st0' =>
                               IH m d default_branch_factor p lo' hi' st0 r0 st0')).
Qed.

(** C1. Provided [undo_change] exactly reverses [update_board], a call
    of [minimax] or of [get_move] that returns leaves the board as it
    found it: the move is undone on the immediate-win return, after each
    evaluated candidate, and so before a [break] and at the end of the
    loop. *)
Theorem search_leaves_board_unchanged :
  (forall fuel maximizer depth B pm lo hi st r st',
     minimax fuel maximizer depth B pm lo hi st = (Ret r, st') ->
     board st' = board st) /\
  (forall fuel self_mark depth B st move st',
     get_move fuel self_mark depth B st = (Ret move, st') ->
     board st' = board st).
Proof.
  split.
  - intros fuel. apply minimax_with_board.
  - intros fuel self_mark depth B st move st'. unfold get_move; simpl.
    destruct (minimax _ _ _ _ _ _ _ st) as [[[mv sc] | e |] st1] eqn:E;
      intros H; inversion H; subst; simpl.
    eapply minimax_with_board, E.
Qed.

(** C2, as the code has it.  When the candidates before [cand] in the
    exploration order have all been evaluated without a win, an error or
    a cutoff, and applying [cand] completes a win, [minimax] undoes the
    move and returns it with plus infinity for the maximizer, minus
    infinity for the minimizer.  The result does not depend on the
    candidates after it, and the node counter moves by one for it:
    nothing is evaluated or searched for that candidate. *)
Theorem reached_win_is_returned fuel maximizer depth B pm lo hi st pre cand post s1 :
  move_order maximizer (cap_x B (fst pm)) (cap_o B (snd pm)) = pre ++ cand :: post ->
  for_loop (fun m d p lo' hi' st0 => minimax fuel m d 10 p lo' hi' st0)
           true maximizer depth (cap_x B (fst pm)) (cap_o B (snd pm))
           pre (mkLoop [] lo hi st) = Next s1 ->
  check_win (fst (update_board (board st) (snd cand))) (snd cand) = true ->
  minimax (S fuel) maximizer depth B pm lo hi st =
  (Ret (snd cand, if maximizer then PosInf else NegInf),
   mkState (board st) (minimax_stack_depth (ai s1) + 1)).
Proof.
  intros Hord Hpre Hwin.
  unfold minimax in *. rewrite minimax_with_S, Hord, for_loop_app.
  change default_branch_factor with 10. rewrite Hpre.
  pose proof (for_loop_board _ (fun m d p lo' hi' st0 r0 st0' =>
                 minimax_with_board true fuel m d 10 p lo' hi' st0 r0 st0')
                true maximizer depth (cap_x B (fst pm)) (cap_o B (snd pm))
                pre (mkLoop [] lo hi st)) as Hb.
  rewrite Hpre in Hb. simpl in Hb.
  simpl for_loop. rewrite loop_body_unfold; simpl.
  rewrite Hb, Hwin, undo_exact. simpl.
  destruct maximizer; reflexivity.
Qed.

End Undo.

(** ** Order on scores *)

Ltac score_leaf :=
  repeat match goal with
         | H : Num _ = Num _ |- _ => injection H as H
         end;
  subst; try discriminate; try congruence; try lia; try (f_equal; lia).

(** Case analysis on the shape of every score in sight. *)
Ltac score_crush :=
  unfold within, slt, sle, smax, smin, score_gtb in *;
  repeat match goal with
         | H : context [score_ltb _ _] |- _ => revert H
         end;
  repeat match goal with x : Score |- _ => destruct x end;
  repeat (cbn [score_ltb]; cbn iota;
          match goal with
          | |- context [?a <? ?b] => destruct (Z.ltb_spec a b)
          end);
  cbn [score_ltb]; cbn iota; intuition score_leaf.

(** Scores form a total order. *)
Module ScoreOrder <: EqLtLe.
Definition t := Score.
Definition eq := @Logic.eq Score.
Definition lt := slt.
Definition le := sle.
End ScoreOrder.

Module ScoreOrderFacts <: IsTotalOrder ScoreOrder.

#[global] Instance eq_equiv : Equivalence ScoreOrder.eq.
Proof. unfold ScoreOrder.eq. apply eq_equivalence. Qed.

#[global] Instance lt_strorder : StrictOrder ScoreOrder.lt.
Proof.
  split.
  - intros a. unfold complement, ScoreOrder.lt. score_crush.
  - intros a b c. unfold ScoreOrder.lt. score_crush.
Qed.

#[global] Instance lt_compat :
  Proper (ScoreOrder.eq ==> ScoreOrder.eq ==> iff) ScoreOrder.lt.
Proof. intros a b -> c d ->. reflexivity. Qed.

Lemma le_lteq (x y : Score) :
  ScoreOrder.le x y <-> ScoreOrder.lt x y \/ ScoreOrder.eq x y.
Proof. unfold ScoreOrder.le, ScoreOrder.lt, ScoreOrder.eq. score_crush. Qed.

Lemma lt_total (x y : Score) :
  ScoreOrder.lt x y \/ ScoreOrder.eq x y \/ ScoreOrder.lt y x.
Proof. unfold ScoreOrder.lt, ScoreOrder.eq. score_crush. Qed.

End ScoreOrderFacts.

Module ScoreTac := MakeOrderTac ScoreOrder ScoreOrderFacts.

Lemma slt_or_sle (a b : Score) : slt a b \/ sle b a.
Proof. unfold slt, sle. destruct (score_ltb a b); auto. Qed.

Lemma smax_spec (a b : Score) :
  (slt a b /\ smax a b = b) \/ (sle b a /\ smax a b = a).
Proof. score_crush. Qed.

Lemma smin_spec (a b : Score) :
  (slt b a /\ smin a b = b) \/ (sle a b /\ smin a b = a).
Proof. score_crush. Qed.

Ltac split_extrema :=
  repeat match goal with
         | |- context [smax ?a ?b] =>
             let E := fresh in
             destruct (smax_spec a b) as [[? E] | [? E]]; rewrite E in *; clear E
         | H : context [smax ?a ?b] |- _ =>
             let E := fresh in
             destruct (smax_spec a b) as [[? E] | [? E]]; rewrite E in *; clear E
         | |- context [smin ?a ?b] =>
             let E := fresh in
             destruct (smin_spec a b) as [[? E] | [? E]]; rewrite E in *; clear E
         | H : context [smin ?a ?b] |- _ =>
             let E := fresh in
             destruct (smin_spec a b) as [[? E] | [? E]]; rewrite E in *; clear E
         end.

Ltac split_premises :=
  repeat match goal with
         | H : ?P /\ ?Q |- _ => destruct H
         | H : ScoreOrder.lt ?a ?b -> _ |- _ =>
             destruct (slt_or_sle a b);
             [specialize (H ltac:(assumption)) | clear H]
         | H : ScoreOrder.le ?a ?b -> _ |- _ =>
             destruct (slt_or_sle b a);
             [clear H | specialize (H ltac:(assumption))]
         end.

(** Goals about [slt], [sle], [smax], [smin] and equality of scores. *)
Ltac score_order :=
  unfold within in *; split_extrema;
  unfold slt, sle, score_gtb in *;
  change (score_ltb ?a ?b = true) with (ScoreOrder.lt a b) in *;
  change (score_ltb ?a ?b = false) with (ScoreOrder.le b a) in *;
  split_premises;
  change (score_ltb ?a ?b = true) with (ScoreOrder.lt a b) in *;
  change (score_ltb ?a ?b = false) with (ScoreOrder.le b a) in *;
  intuition (try ScoreTac.order).

Lemma sle_refl (a : Score) : sle a a.
Proof. score_order. Qed.

Lemma within_exact (lo hi v : Score) : within lo hi v v.
Proof. score_order. Qed.

Lemma within_unbounded (v m : Score) : within NegInf PosInf v m -> m = v.
Proof. score_crush. Qed.

Lemma smax_assoc (a b c : Score) : smax (smax a b) c = smax a (smax b c).
Proof. score_order. Qed.

Lemma smin_assoc (a b c : Score) : smin (smin a b) c = smin a (smin b c).
Proof. score_order. Qed.

Lemma smax_neg_inf (a : Score) : smax a NegInf = a /\ smax NegInf a = a.
Proof. score_crush. Qed.

Lemma smin_pos_inf (a : Score) : smin a PosInf = a /\ smin PosInf a = a.
Proof. score_crush. Qed.

Lemma bounds_stay_ordered_max (lo hi vP : Score) :
  sle lo hi -> sle vP hi -> sle (smax lo vP) hi.
Proof. intros. score_order. Qed.

Lemma bounds_stay_ordered_min (lo hi vP : Score) :
  sle lo hi -> sle lo vP -> sle lo (smin hi vP).
Proof. intros. score_order. Qed.

(** One more candidate at a maximizing node, no cutoff. *)
Lemma max_node_next (lo hi vP mE v mc : Score) :
  sle lo hi -> sle vP hi ->
  (slt vP lo -> sle mE vP) -> (sle lo vP -> mE = vP) ->
  within (smax lo vP) hi v mc ->
  score_gtb v hi = false ->
  sle (smax vP v) hi /\
  (slt (smax vP v) lo -> sle (smax mE mc) (smax vP v)) /\
  (sle lo (smax vP v) -> smax mE mc = smax vP v).
Proof. intros. score_order. Qed.

(** One more candidate at a minimizing node, no cutoff. *)
Lemma min_node_next (lo hi vP mE v mc : Score) :
  sle lo hi -> sle lo vP ->
  (slt hi vP -> sle vP mE) -> (sle vP hi -> mE = vP) ->
  within lo (smin hi vP) v mc ->
  score_ltb v lo = false ->
  sle lo (smin vP v) /\
  (slt hi (smin vP v) -> sle (smin vP v) (smin mE mc)) /\
  (sle (smin vP v) hi -> smin mE mc = smin vP v).
Proof. intros. score_order. Qed.

(** The candidate that triggers the cutoff. *)
Lemma max_node_break (lo hi vP mE v mc : Score) :
  sle lo hi -> sle vP hi ->
  within (smax lo vP) hi v mc ->
  score_gtb v hi = true ->
  slt hi (smax vP v) /\ sle (smax vP v) (smax mE mc).
Proof. intros. score_order. Qed.

Lemma min_node_break (lo hi vP mE v mc : Score) :
  sle lo hi -> sle lo vP ->
  within lo (smin hi vP) v mc ->
  score_ltb v lo = true ->
  slt (smin vP v) lo /\ sle (smin mE mc) (smin vP v).
Proof. intros. score_order. Qed.

(** The loop ran to its end. *)
Lemma max_node_final (lo hi vP mE : Score) :
  sle vP hi -> (slt vP lo -> sle mE vP) -> (sle lo vP -> mE = vP) ->
  within lo hi vP mE.
Proof. intros. score_order. Qed.

Lemma min_node_final (lo hi vP mE : Score) :
  sle lo vP -> (slt hi vP -> sle vP mE) -> (sle vP hi -> mE = vP) ->
  within lo hi vP mE.
Proof. intros. score_order. Qed.

(** The loop was cut. *)
Lemma max_node_cut (lo hi vB mB m : Score) :
  sle lo hi -> slt hi vB -> sle vB mB -> sle mB m -> within lo hi vB m.
Proof. intros. score_order. Qed.

Lemma min_node_cut (lo hi vB mB m : Score) :
  sle lo hi -> slt vB lo -> sle mB vB -> sle m mB -> within lo hi vB m.
Proof. intros. score_order. Qed.

(** ** Best score of a list of choices *)

Lemma best_of_snoc (maximizer : bool) (l : list (Move * Score)) (c : Move * Score) :
  best_of maximizer (l ++ [c]) =
  if maximizer then smax (best_of maximizer l) (snd c)
  else smin (best_of maximizer l) (snd c).
Proof.
  unfold best_of. rewrite fold_left_app. destruct maximizer; reflexivity.
Qed.

Lemma first_best_max (cur : Move * Score) (l : list (Move * Score)) :
  snd (first_best score_gtb cur l) =
  fold_left (fun acc c => smax acc (snd c)) l (snd cur).
Proof.
  revert cur. induction l as [| c l IH]; intros cur; simpl; [reflexivity |].
  rewrite IH. f_equal. unfold smax.
  destruct (score_gtb (snd c) (snd cur)); reflexivity.
Qed.

Lemma first_best_min (cur : Move * Score) (l : list (Move * Score)) :
  snd (first_best score_ltb cur l) =
  fold_left (fun acc c => smin acc (snd c)) l (snd cur).
Proof.
  revert cur. induction l as [| c l IH]; intros cur; simpl; [reflexivity |].
  rewrite IH. f_equal. unfold smin.
  destruct (score_ltb (snd c) (snd cur)); reflexivity.
Qed.

Lemma extremal_best (maximizer : bool) (l : list (Move * Score)) (r : Move * Score) :
  extremal maximizer l = Ret r -> snd r = best_of maximizer l /\ l <> [].
Proof.
  destruct l as [| c t]; simpl; [discriminate |].
  intros H. inversion H; subst. split; [| discriminate].
  unfold best_of. destruct maximizer; simpl.
  - rewrite first_best_max. f_equal. symmetry. apply smax_neg_inf.
  - rewrite first_best_min. f_equal. symmetry. apply smin_pos_inf.
Qed.

Lemma extremal_nonempty (maximizer : bool) (l : list (Move * Score)) :
  l <> [] -> exists r, extremal maximizer l = Ret r.
Proof. destruct l; [congruence | intros _; simpl; eauto]. Qed.

Lemma best_of_snoc_monotone (maximizer : bool) (l : list (Move * Score))
    (c : Move * Score) :
  if maximizer then sle (best_of true l) (best_of true (l ++ [c]))
  else sle (best_of false (l ++ [c])) (best_of false l).
Proof.
  destruct maximizer; rewrite best_of_snoc; score_order.
Qed.

(** ** Searching with and without the cutoff *)

Section Pruning.
Context {Board TileState : Type} `{API : BoardAPI Board TileState}.

Local Abbreviation State := (AIState Board).
Local Abbreviation Call :=
  (bool -> Z -> list Cand * list Cand -> Score -> Score ->
   State -> Res (Move * Score) * State).

Implicit Types (s sE sP : @LoopState Board) (st : State) (cand : Cand).

Lemma record_choice_extends cutoff maximizer move v
    (orig : list (Pos * TileState)) s st3 :
  match record_choice cutoff maximizer move v orig s st3 with
  | Next s' | Break s' => choices s' = choices s ++ [(move, v)]
  | Leave _ _ => False
  end.
Proof.
  unfold record_choice.
  destruct maximizer;
    [destruct (cutoff && score_gtb v (min_worst s))
    | destruct (cutoff && score_ltb v (max_worst s))]; reflexivity.
Qed.

(** Whatever a node returns is at least as good, for the side to move,
    as every choice it had already recorded. *)
Lemma loop_result_bound (rec : Call) cutoff maximizer depth poss_x poss_o poss s r st' :
  after_loop maximizer (for_loop rec cutoff maximizer depth poss_x poss_o poss s)
  = (Ret r, st') ->
  if maximizer then sle (best_of true (choices s)) (snd r)
  else sle (snd r) (best_of false (choices s)).
Proof.
  revert s. induction poss as [| c poss IH]; intros s; simpl.
  - intros H. inversion H as [[He Hs]]. apply extremal_best in He.
    destruct He as [-> _]. destruct maximizer; apply sle_refl.
  - rewrite loop_body_unfold; simpl.
    destruct (check_win _ _).
    { simpl. intros H. inversion H; subst; simpl.
      destruct maximizer; simpl;
        [generalize (best_of true (choices s))
        | generalize (best_of false (choices s))];
        intros x; score_crush. }
    destruct (fst (nxt_ply _ _ _ _ _ _ _ _ _ _)) as [v | e |];
      simpl; try discriminate.
    match goal with
    | |- context [record_choice ?a ?b ?c ?d ?e ?f ?g] =>
        pose proof (record_choice_extends a b c d e f g) as Hx;
        destruct (record_choice a b c d e f g) as [s' | s' | r' st0]
    end; [| | contradiction].
    + intros H. apply IH in H. rewrite Hx in H.
      pose proof (best_of_snoc_monotone maximizer (choices s) (snd c, v)) as Hm.
      destruct maximizer; score_order.
    + simpl. intros H. inversion H as [[He Hs]]. apply extremal_best in He.
      destruct He as [-> _]. rewrite Hx.
      pose proof (best_of_snoc_monotone maximizer (choices s) (snd c, v)) as Hm.
      destruct maximizer; exact Hm.
Qed.

Section OneNode.
Variables recE recP : Call.
Hypothesis recE_keeps : forall m d pm lo hi st r st',
  recE m d pm lo hi st = (Ret r, st') -> board st' = board st.
Hypothesis recP_keeps : forall m d pm lo hi st r st',
  recP m d pm lo hi st = (Ret r, st') -> board st' = board st.
Hypothesis rec_sim : forall m d pm lo hi loE hiE stE stP rE stE',
  sle lo hi -> board stE = board stP ->
  recE m d pm loE hiE stE = (Ret rE, stE') ->
  exists rP stP', recP m d pm lo hi stP = (Ret rP, stP') /\
                  within lo hi (snd rP) (snd rE).
Variables (maximizer : bool) (depth : Z) (poss_x poss_o : list Cand).
Variables (lo hi : Score).

Lemma nxt_ply_sim move (b1 : Board) (orig : list (Pos * TileState)) sE sP cE cP mc :
  sle (max_worst sP) (min_worst sP) ->
  fst (nxt_ply recE maximizer depth poss_x poss_o move b1 orig sE (mkState b1 cE))
  = Ret mc ->
  exists v,
    fst (nxt_ply recP maximizer depth poss_x poss_o move b1 orig sP (mkState b1 cP))
    = Ret v /\
    within (max_worst sP) (min_worst sP) v mc.
Proof.
  unfold nxt_ply. intros Hord. destruct (depth =? 1); simpl.
  - intros H. inversion H; subst. eexists. split; [reflexivity | apply within_exact].
  - destruct (recE _ _ _ _ _ (mkState b1 cE)) as [[[mvE sc] | e |] stE'] eqn:E;
      simpl; try discriminate.
    intros H. inversion H; subst.
    destruct (rec_sim _ _ _ (max_worst sP) (min_worst sP) _ _
                      (mkState b1 cE) (mkState b1 cP)
                      _ _ Hord eq_refl E) as [[mvP v] [stP' [EP W]]].
    rewrite EP. simpl. exists v. auto.
Qed.

(** One iteration, run on both sides from related loop states. *)
Lemma loop_body_sim cand sE sP :
  loop_inv maximizer lo hi sE sP ->
  match loop_body recE false maximizer depth poss_x poss_o cand sE with
  | Leave (Ret r) _ =>
      exists stP',
        loop_body recP true maximizer depth poss_x poss_o cand sP = Leave (Ret r) stP'
  | Leave _ _ => True
  | Break _ => False
  | Next sE' =>
      match loop_body recP true maximizer depth poss_x poss_o cand sP with
      | Next sP' => loop_inv maximizer lo hi sE' sP'
      | Break sP' =>
          choices sP' <> [] /\
          if maximizer then
            slt hi (best_of true (choices sP')) /\
            sle (best_of true (choices sP')) (best_of true (choices sE'))
          else
            slt (best_of false (choices sP')) lo /\
            sle (best_of false (choices sE')) (best_of false (choices sP'))
      | Leave _ _ => False
      end
  end.
Proof.
  intros [Hb [Hlen [Hlh Hm]]].
  rewrite !loop_body_unfold. cbv zeta. rewrite Hb.
  set (move := snd cand).
  set (b1 := fst (update_board (board (ai sP)) move)).
  set (orig := snd (update_board (board (ai sP)) move)).
  destruct (check_win b1 move); [eexists; reflexivity |].
  destruct (fst (nxt_ply recE _ _ _ _ _ _ _ _ _)) as [mc | e |] eqn:EE;
    try exact I.
  assert (Hord : sle (max_worst sP) (min_worst sP)).
  { destruct maximizer; cbv zeta in Hm;
      destruct Hm as [H1 [H2 [H3 _]]]; rewrite H1, H2;
      [apply bounds_stay_ordered_max | apply bounds_stay_ordered_min]; assumption. }
  pose proof (nxt_ply_board recE recE_keeps maximizer depth poss_x poss_o
                            _ _ _ _ _ _ EE) as HbE.
  destruct (nxt_ply_sim move b1 orig sE sP _ (minimax_stack_depth (ai sP) + 1)
                        mc Hord EE) as [v [EP W]].
  pose proof (nxt_ply_board recP recP_keeps maximizer depth poss_x poss_o
                            _ _ _ _ _ _ EP) as HbP.
  rewrite EP. simpl in HbE, HbP.
  unfold record_choice. rewrite HbE, HbP.
  destruct maximizer; cbv zeta in Hm; cbn [andb];
    destruct Hm as [H1 [H2 [H3 [H4 H5]]]]; rewrite H1, H2 in W.
  - destruct (score_gtb v (min_worst sP)) eqn:G; rewrite H2 in G.
    + split; [cbn [choices]; destruct (choices sP); discriminate |].
      cbn [choices]. rewrite !best_of_snoc; cbn [snd].
      exact (max_node_break lo hi _ _ _ _ Hlh H3 W G).
    + unfold loop_inv; cbn [choices max_worst min_worst ai board].
      rewrite !length_app, Hlen, !best_of_snoc. cbn [snd].
      destruct (max_node_next _ _ _ _ _ _ Hlh H3 H4 H5 W G) as [N1 [N2 N3]].
      repeat split; try assumption; try reflexivity.
      rewrite H1. fold (smax (smax lo (best_of true (choices sP))) v).
      apply smax_assoc.
  - destruct (score_ltb v (max_worst sP)) eqn:G; rewrite H2 in G.
    + split; [cbn [choices]; destruct (choices sP); discriminate |].
      cbn [choices]. rewrite !best_of_snoc; cbn [snd].
      exact (min_node_break lo hi _ _ _ _ Hlh H3 W G).
    + unfold loop_inv; cbn [choices max_worst min_worst ai board].
      rewrite !length_app, Hlen, !best_of_snoc. cbn [snd].
      destruct (min_node_next _ _ _ _ _ _ Hlh H3 H4 H5 W G) as [N1 [N2 N3]].
      repeat split; try assumption; try reflexivity.
      rewrite H1. fold (smin (smin hi (best_of false (choices sP))) v).
      apply smin_assoc.
Qed.

(** The whole loop. *)
Lemma for_loop_sim poss : forall sE sP rE stE',
  loop_inv maximizer lo hi sE sP ->
  after_loop maximizer
    (for_loop recE false maximizer depth poss_x poss_o poss sE) = (Ret rE, stE') ->
  exists rP stP',
    after_loop maximizer
      (for_loop recP true maximizer depth poss_x poss_o poss sP) = (Ret rP, stP') /\
    within lo hi (snd rP) (snd rE).
Proof.
  induction poss as [| c poss IH]; intros sE sP rE stE' Hinv H.
  - simpl in *. inversion H as [[He Hs]]. apply extremal_best in He.
    destruct He as [HrE Hne]. destruct Hinv as [Hb [Hlen [Hlh Hm]]].
    assert (HneP : choices sP <> []).
    { intros E. rewrite E in Hlen. destruct (choices sE); [congruence | discriminate]. }
    destruct (extremal_nonempty maximizer _ HneP) as [rP EP].
    exists rP, (ai sP). rewrite EP. split; [reflexivity |].
    apply extremal_best in EP. destruct EP as [-> _]. rewrite HrE.
    destruct maximizer; cbv zeta in Hm; destruct Hm as [_ [_ [H3 [H4 H5]]]];
      [apply max_node_final | apply min_node_final]; assumption.
  - simpl in H |- *. pose proof (loop_body_sim c sE sP Hinv) as Hstep.
    destruct (loop_body recE false maximizer depth poss_x poss_o c sE)
      as [sE' | sE' | [r | e |] stE0] eqn:EE.
    + destruct (loop_body recP true maximizer depth poss_x poss_o c sP)
        as [sP' | sP' | rP0 stP0] eqn:EP.
      * exact (IH _ _ _ _ Hstep H).
      * destruct Hstep as [Hne Hbr]. destruct Hinv as [_ [_ [Hlh _]]].
        destruct (extremal_nonempty maximizer _ Hne) as [rP ErP].
        exists rP, (ai sP'). simpl. rewrite ErP. split; [reflexivity |].
        apply extremal_best in ErP. destruct ErP as [-> _].
        pose proof (loop_result_bound _ _ _ _ _ _ _ _ _ _ H) as Hbound.
        destruct maximizer; destruct Hbr as [B1 B2];
          [exact (max_node_cut _ _ _ _ _ Hlh B1 B2 Hbound)
          | exact (min_node_cut _ _ _ _ _ Hlh B1 B2 Hbound)].
      * contradiction.
    + contradiction.
    + destruct Hstep as [stP' EP]. rewrite EP. simpl in *.
      inversion H; subst. exists rE, stP'. split; [reflexivity | apply within_exact].
    + simpl in H. discriminate.
    + simpl in H. discriminate.
Qed.

End OneNode.

(** [undo_change] exactly reverses the [update_board] it is paired with. *)
Hypothesis undo_exact : forall (b : Board) (move : Move),
  undo_change (fst (update_board b move)) (snd (update_board b move)) move = b.

Lemma minimax_with_sim fuel :
  forall maximizer depth B pm lo hi loE hiE stE stP rE stE',
    sle lo hi -> board stE = board stP ->
    minimax_with false fuel maximizer depth B pm loE hiE stE = (Ret rE, stE') ->
    exists rP stP',
      minimax_with true fuel maximizer depth B pm lo hi stP = (Ret rP, stP') /\
      within lo hi (snd rP) (snd rE).
Proof.
  induction fuel as [| fuel IH];
    intros maximizer depth B pm lo hi loE hiE stE stP rE stE' Hlh Hb H.
  - discriminate.
  - rewrite minimax_with_S in H |- *.
    refine (for_loop_sim
              (fun m d p a b st0 =>
                 minimax_with false fuel m d default_branch_factor p a b st0)
              (fun m d p a b st0 =>
                 minimax_with true fuel m d default_branch_factor p a b st0)
              _ _ _ maximizer depth _ _ lo hi _
              (mkLoop [] loE hiE stE) (mkLoop [] lo hi stP) rE stE' _ H).
    + intros m d p a b st0 r st1. apply (minimax_with_board undo_exact).
    + intros m d p a b st0 r st1. apply (minimax_with_board undo_exact).
    + intros m d p a b aE bE st0 st1 r st2. apply IH.
    + unfold loop_inv; cbn [choices max_worst min_worst ai board].
      split; [exact Hb |]. split; [reflexivity |]. split; [exact Hlh |].
      unfold best_of; simpl.
      destruct maximizer; repeat split; try score_crush.
Qed.

(** C4. Provided [undo_change] exactly reverses [update_board], a
    search started with the bounds of [get_move] (minus and plus
    infinity) finds the same value with the cutoff tests as without
    them: whenever the search without cutoff returns, the search with
    cutoff returns too, with the same score, over the same capped and
    interleaved candidates.  So the search without cutoff never finds a
    better score. *)
Theorem cutoff_preserves_value fuel maximizer depth B pm st rE stE :
  minimax_exhaustive fuel maximizer depth B pm NegInf PosInf st = (Ret rE, stE) ->
  exists rP stP,
    minimax fuel maximizer depth B pm NegInf PosInf st = (Ret rP, stP) /\
    snd rP = snd rE /\
    (if maximizer then sle (snd rE) (snd rP) else sle (snd rP) (snd rE)).
Proof.
  intros H.
  destruct (minimax_with_sim fuel maximizer depth B pm NegInf PosInf
              NegInf PosInf st st rE stE) as [rP [stP [HP W]]];
    [reflexivity | reflexivity | exact H |].
  exists rP, stP. apply within_unbounded in W.
  split; [exact HP |]. split; [congruence |].
  rewrite W. destruct maximizer; apply sle_refl.
Qed.

End Pruning.

(** ** Enough fuel *)

Section Fuel.
Context {Board TileState : Type} `{API : BoardAPI Board TileState}.

Local Abbreviation State := (AIState Board).
Local Abbreviation Call :=
  (bool -> Z -> list Cand * list Cand -> Score -> Score ->
   State -> Res (Move * Score) * State).

Implicit Types (s : @LoopState Board) (st : State) (cand : Cand).

Section OneNode.
Variable rec : Call.
Variables (cutoff maximizer : bool) (depth : Z) (poss_x poss_o : list Cand).
Hypothesis rec_answers : depth <> 1 -> forall m pm lo hi st,
  fst (rec m (depth - 1) pm lo hi st) <> OutOfFuel.

Lemma loop_body_answers cand s st' :
  loop_body rec cutoff maximizer depth poss_x poss_o cand s <> Leave OutOfFuel st'.
Proof.
  rewrite loop_body_unfold; cbv zeta.
  destruct (check_win _ _); [discriminate |].
  destruct (fst (nxt_ply _ _ _ _ _ _ _ _ _ _)) as [v | e |] eqn:E;
    [apply record_choice_not_leave | discriminate |].
  exfalso. revert E. unfold nxt_ply.
  destruct (depth =? 1) eqn:D; [discriminate |].
  apply Z.eqb_neq in D.
  match goal with
  | |- context [rec ?m ?d ?pm ?a ?b ?st0] =>
      pose proof (rec_answers D m pm a b st0) as Hr;
      destruct (rec m d pm a b st0) as [[[mv sc] | e |] st1]
  end; simpl in *; congruence.
Qed.

Lemma for_loop_answers poss s st' :
  for_loop rec cutoff maximizer depth poss_x poss_o poss s <> Leave OutOfFuel st'.
Proof.
  revert s. induction poss as [| c poss IH]; intros s; simpl; [discriminate |].
  pose proof (loop_body_answers c s) as Hc.
  destruct (loop_body rec cutoff maximizer depth poss_x poss_o c s)
    as [s' | s' | r st0]; [apply IH | discriminate |].
  intros E. inversion E; subst. eapply Hc. reflexivity.
Qed.

End OneNode.

(** A search of depth [depth >= 1] nests at most [depth] calls: with
    that much fuel it returns or raises. *)
Lemma minimax_with_answers cutoff fuel :
  forall maximizer depth B pm lo hi st,
    1 <= depth <= Z.of_nat fuel ->
    fst (minimax_with cutoff fuel maximizer depth B pm lo hi st) <> OutOfFuel.
Proof.
  induction fuel as [| fuel IH]; intros maximizer depth B pm lo hi st Hd.
  - lia.
  - rewrite minimax_with_S.
    match goal with
    | |- fst (after_loop _ ?fl) <> _ =>
        pose proof (fun st' => for_loop_answers
          (fun m d p a b st0 =>
             minimax_with cutoff fuel m d default_branch_factor p a b st0)
          cutoff maximizer depth (cap_x B (fst pm)) (cap_o B (snd pm))
          (fun D m p a b st0 => IH m (depth - 1) default_branch_factor p a b st0
                                   ltac:(lia))
          (move_order maximizer (cap_x B (fst pm)) (cap_o B (snd pm)))
          (mkLoop [] lo hi st) st') as Hfl;
        destruct fl as [s | s | r st0]
    end; simpl.
    + destruct (choices s); simpl; discriminate.
    + destruct (choices s); simpl; discriminate.
    + intros E. subst. eapply Hfl. reflexivity.
Qed.

End Fuel.

(** ** The search on the strip *)

Lemma set_cell_restore (b : Strip.Board) (n : nat) (c : option Mark) :
  Strip.set_cell (Strip.set_cell b n c) n
                 (match nth_error b n with Some c0 => c0 | None => None end) = b.
Proof.
  revert n. induction b as [| a t IH]; intros [| n]; simpl;
    try reflexivity.
  f_equal. apply IH.
Qed.

(** On the strip [undo_change] exactly reverses [update_board]. *)
Lemma strip_undo_exact (b : Strip.Board) (move : Move) :
  undo_change (fst (update_board b move)) (snd (update_board b move)) move = b.
Proof.
  destruct move as [[tile_x tile_y] m]. simpl. unfold Strip.update_board.
  destruct (Strip.in_board b tile_x tile_y) eqn:E; simpl; [| reflexivity].
  unfold Strip.in_board in E. apply andb_true_iff in E. destruct E as [E _].
  apply andb_true_iff in E. destruct E as [_ E]. apply Z.leb_le in E.
  unfold Strip.cell. destruct (tile_x <? 0) eqn:E0; [apply Z.ltb_lt in E0; lia |].
  apply set_cell_restore.
Qed.

Lemma search_leaves_board_unchanged_witness :
  board (snd (get_move 4 O 3 20 (mkState midgame 0))) = midgame.
Proof.
  apply (proj2 (search_leaves_board_unchanged strip_undo_exact)
           4%nat O 3 20 (mkState midgame 0) (10, 0, O)).
  vm_compute. reflexivity.
Defined.

(** C2 as stated fails.  The winning move at column 2 is in the lists,
    but the candidate explored before it already scores above the
    minimizer's bound, so the loop breaks and the other move is returned
    with a finite score. *)
Lemma win_behind_cutoff_not_returned :
  In (entry (-1) 1 2 O) (snd two_in_row_lists) /\
  check_win (fst (update_board two_in_row (2, 0, O))) (2, 0, O) = true /\
  minimax 2 true 1 20 two_in_row_lists NegInf (Num 0) (mkState two_in_row 0)
  = (Ret ((5, 0, O), Num 10), mkState two_in_row 1) /\
  fst (minimax 2 true 1 20 two_in_row_lists NegInf (Num 0) (mkState two_in_row 0))
  <> Ret ((2, 0, O), PosInf).
Proof.
  split; [left; reflexivity |].
  split; [reflexivity |].
  split; [reflexivity |].
  vm_compute. discriminate.
Qed.

Lemma reached_win_is_returned_witness :
  minimax 2 true 1 20 two_in_row_lists NegInf PosInf (mkState two_in_row 0)
  = (Ret ((2, 0, O), PosInf), mkState two_in_row 2).
Proof.
  apply (reached_win_is_returned strip_undo_exact 1%nat true 1 20
           two_in_row_lists NegInf PosInf (mkState two_in_row 0)
           [entry 0 1 5 O] (entry (-1) 1 2 O) []
           (mkLoop [((5, 0, O), Num 10)] (Num 10) PosInf (mkState two_in_row 1)));
    reflexivity.
Defined.

(** C3 as stated fails.  On the empty strip both lists are empty and
    the search raises instead of returning the static score. *)
Lemma empty_lists_no_static_fallback :
  fst (get_possible_moves (mkState quiet_board 0) true) = ([], []) /\
  fst (minimax 3 true 2 20 ([], []) NegInf PosInf (mkState quiet_board 0))
  = Raise ValueError /\
  forall move,
    fst (minimax 3 true 2 20 ([], []) NegInf PosInf (mkState quiet_board 0))
    <> Ret (move, Num (score_board quiet_board)).
Proof.
  split; [reflexivity |]. split; [reflexivity |].
  intros move. vm_compute. discriminate.
Qed.

Lemma cutoff_preserves_value_witness :
  exists rP stP,
    minimax 4 true 3 20 midgame_lists NegInf PosInf (mkState midgame 0)
    = (Ret rP, stP) /\
    snd rP = Num 6 /\ sle (Num 6) (snd rP).
Proof.
  apply (cutoff_preserves_value strip_undo_exact 4%nat true 3 20 midgame_lists
           (mkState midgame 0) ((10, 0, O), Num 6) (mkState midgame 364)).
  vm_compute. reflexivity.
Defined.

(** The cutoff does save work there: 257 candidates against 364. *)
Lemma cutoff_visits_fewer_nodes :
  minimax_stack_depth
    (snd (minimax 4 true 3 20 midgame_lists NegInf PosInf (mkState midgame 0)))
  = 257 /\
  minimax_stack_depth
    (snd (minimax_exhaustive 4 true 3 20 midgame_lists NegInf PosInf
                             (mkState midgame 0)))
  = 364.
Proof. split; vm_compute; reflexivity. Qed.

(** C5 as stated fails.  With a cap of 3 the maximizer-favoring list
    keeps its last two entries, not its last one. *)
Lemma maximizer_cap_rounds_up :
  cap_o 3 three_o = [entry 0 2 2 O; entry 0 3 3 O] /\
  cap_o 3 three_o <> last_entries (Z.to_nat (3 / 2)) three_o.
Proof. split; [reflexivity | vm_compute; discriminate]. Qed.

Lemma branch_cap_bounds_node_witness :
  cap_x 3 x_only_list = firstn (Z.to_nat (3 / 2)) x_only_list /\
  cap_o 3 three_o = last_entries (Z.to_nat ((3 + 1) / 2)) three_o /\
  Z.of_nat (length (move_order true (cap_x 3 x_only_list) (cap_o 3 three_o))) <= 3 /\
  (forall fuel mw nw (st : AIState Strip.Board),
     minimax_stack_depth
       (snd (minimax fuel true 1 3 (x_only_list, three_o) mw nw st))
     <= minimax_stack_depth st + 3).
Proof.
  apply (branch_cap_bounds_node (Board := Strip.Board) 3 x_only_list three_o true).
  lia.
Defined.

(** C6. For the maximizer the fourth slice is cut at half the length of
    the maximizer's list, not of the minimizer's.  With six entries in
    the minimizer's list and none in the maximizer's, as on the board
    [x_only_board], three entries are explored twice, where the
    specified order lists each entry once. *)
Theorem maximizer_order_repeats_entries :
  fst (get_possible_moves (mkState x_only_board 0) true) = (x_only_list, []) /\
  move_order true x_only_list [] =
    [entry (-1) 0 0 O; entry (-1) 0 2 O; entry (-1) 0 3 O] ++ x_only_list /\
  interleave_spec true x_only_list [] = x_only_list /\
  move_order true x_only_list [] <> interleave_spec true x_only_list [].
Proof.
  split; [reflexivity |]. split; [reflexivity |]. split; [reflexivity |].
  vm_compute. discriminate.
Qed.

(** On [midgame] under a configured cap of 2 the root examines its two
    candidates and the nodes below examine five more, where two nodes
    capped at 2 could examine four; and with one entry in each root
    list the caps 2 and 20 give the same search, nested nodes
    included. *)
Lemma branch_factor_applies_at_root_only_witness :
  minimax_stack_depth
    (snd (minimax 3 true 2 2 midgame_lists NegInf PosInf (mkState midgame 0))) = 7 /\
  minimax_stack_depth
    (snd (minimax 3 true 2 2 midgame_lists NegInf PosInf (mkState midgame 0)))
  <= 0 + 2 * (1 + nested_work (Z.to_nat (2 - 1))) /\
  minimax 3 true 2 2 two_sided_lists NegInf PosInf (mkState midgame 0) =
  minimax 3 true 2 20 two_sided_lists NegInf PosInf (mkState midgame 0).
Proof.
  split; [vm_compute; reflexivity |].
  destruct (branch_factor_applies_at_root_only (Board := Strip.Board))
    as [_ [Hsame [_ Hwork]]].
  split.
  - apply (Hwork 3%nat true 2 2 midgame_lists NegInf PosInf (mkState midgame 0));
      lia.
  - apply Hsame; reflexivity.
Defined.

(** * Further properties of the search *)

(** ** What one iteration can do *)

Section Iterations.
Context {Board TileState : Type} `{API : BoardAPI Board TileState}.

Local Abbreviation State := (AIState Board).
Local Abbreviation Call :=
  (bool -> Z -> list Cand * list Cand -> Score -> Score ->
   State -> Res (Move * Score) * State).

Implicit Types (rec : Call) (s : @LoopState Board) (st : State) (cand : Cand).

(** The three ways an iteration ends: the move wins and is returned;
    the position is scored and the choice recorded; the nested call
    fails. *)
Lemma loop_body_cases rec cutoff maximizer depth poss_x poss_o cand s :
  match loop_body rec cutoff maximizer depth poss_x poss_o cand s with
  | Leave (Ret r) _ =>
      check_win (fst (update_board (board (ai s)) (snd cand))) (snd cand) = true /\
      r = (snd cand, if maximizer then PosInf else NegInf)
  | Leave _ _ =>
      check_win (fst (update_board (board (ai s)) (snd cand))) (snd cand) = false
  | Next s' | Break s' =>
      check_win (fst (update_board (board (ai s)) (snd cand))) (snd cand) = false /\
      exists v,
        fst (nxt_ply rec maximizer depth poss_x poss_o (snd cand)
               (fst (update_board (board (ai s)) (snd cand)))
               (snd (update_board (board (ai s)) (snd cand))) s
               (mkState (fst (update_board (board (ai s)) (snd cand)))
                        (minimax_stack_depth (ai s) + 1))) = Ret v /\
        choices s' = choices s ++ [(snd cand, v)]
  end.
Proof.
  rewrite loop_body_unfold; cbv zeta.
  destruct (check_win _ _) eqn:W.
  { split; [reflexivity |]. destruct maximizer; reflexivity. }
  destruct (fst (nxt_ply _ _ _ _ _ _ _ _ _ _)) as [v | e |] eqn:E;
    try reflexivity.
  match goal with
  | |- context [record_choice ?a ?b ?c ?d ?e ?f ?g] =>
      pose proof (record_choice_extends a b c d e f g) as Hx;
      destruct (record_choice a b c d e f g) as [s' | s' | r' st0]
  end; [| | contradiction]; (split; [reflexivity | exists v; auto]).
Qed.

(** A property of loop states kept by every iteration is kept by the
    loop. *)
Lemma for_loop_invariant rec cutoff maximizer depth poss_x poss_o
    (Inv : @LoopState Board -> Prop) (Out : Move * Score -> Prop) poss :
  (forall cand s, In cand poss -> Inv s ->
     match loop_body rec cutoff maximizer depth poss_x poss_o cand s with
     | Next s' | Break s' => Inv s'
     | Leave (Ret r) _ => Out r
     | Leave _ _ => True
     end) ->
  forall s, Inv s ->
    match for_loop rec cutoff maximizer depth poss_x poss_o poss s with
    | Next s' | Break s' => Inv s'
    | Leave (Ret r) _ => Out r
    | Leave _ _ => True
    end.
Proof.
  induction poss as [| c poss IH]; intros Hbody s Hs; simpl; [exact Hs |].
  pose proof (Hbody c s (or_introl eq_refl) Hs) as Hc.
  destruct (loop_body rec cutoff maximizer depth poss_x poss_o c s)
    as [s' | s' | r st0]; try exact Hc.
  apply IH; [| exact Hc].
  intros cand s0 Hin. apply Hbody. right. exact Hin.
Qed.

Lemma first_best_In (better : Score -> Score -> bool) (cur : Move * Score)
    (l : list (Move * Score)) :
  In (first_best better cur l) (cur :: l).
Proof.
  revert cur. induction l as [| c l IH]; intros cur; simpl; [auto |].
  destruct (IH (if better (snd c) (snd cur) then c else cur)) as [H | H].
  - destruct (better (snd c) (snd cur)); rewrite <- H; auto.
  - auto.
Qed.

Lemma extremal_In (maximizer : bool) (l : list (Move * Score)) (r : Move * Score) :
  extremal maximizer l = Ret r -> In r l.
Proof.
  destruct l as [| c t]; simpl; [discriminate |].
  intros H. inversion H. apply first_best_In.
Qed.

Lemma slice_to_In {A : Type} (l : list A) (k : Z) (x : A) :
  In x (slice_to l k) -> In x l.
Proof.
  unfold slice_to. destruct (0 <=? k); intros H;
    match type of H with
    | In _ (firstn ?n _) => rewrite <- (firstn_skipn n l)
    end; apply in_or_app; auto.
Qed.

Lemma slice_from_In {A : Type} (l : list A) (k : Z) (x : A) :
  In x (slice_from l k) -> In x l.
Proof.
  unfold slice_from. destruct (0 <=? k); intros H;
    match type of H with
    | In _ (skipn ?n _) => rewrite <- (firstn_skipn n l)
    end; apply in_or_app; auto.
Qed.

Lemma move_order_In maximizer (poss_x poss_o : list Cand) (c : Cand) :
  In c (move_order maximizer poss_x poss_o) -> In c poss_x \/ In c poss_o.
Proof.
  unfold move_order. destruct maximizer; rewrite !in_app_iff;
    intros [H | [H | [H | H]]];
    (apply slice_to_In in H || apply slice_from_In in H); auto.
Qed.

Lemma for_loop_moves rec cutoff maximizer depth poss_x poss_o poss s :
  (forall c, In c (choices s) -> In (fst c) (map snd poss)) ->
  match for_loop rec cutoff maximizer depth poss_x poss_o poss s with
  | Next s' | Break s' => forall c, In c (choices s') -> In (fst c) (map snd poss)
  | Leave (Ret r) _ => In (fst r) (map snd poss)
  | Leave _ _ => True
  end.
Proof.
  apply (for_loop_invariant rec cutoff maximizer depth poss_x poss_o
           (fun s0 => forall c, In c (choices s0) -> In (fst c) (map snd poss))
           (fun r => In (fst r) (map snd poss))).
  intros cand s0 Hin Hs0.
  pose proof (loop_body_cases rec cutoff maximizer depth poss_x poss_o cand s0) as Hc.
  destruct (loop_body rec cutoff maximizer depth poss_x poss_o cand s0)
    as [s' | s' | [r | e |] st0]; try exact I.
  - destruct Hc as [_ [v [_ ->]]]. intros c Hc. apply in_app_or in Hc.
    destruct Hc as [Hc | [<- | []]]; [auto | cbn [fst]; apply in_map, Hin].
  - destruct Hc as [_ [v [_ ->]]]. intros c Hc. apply in_app_or in Hc.
    destruct Hc as [Hc | [<- | []]]; [auto | cbn [fst]; apply in_map, Hin].
  - destruct Hc as [_ ->]. cbn [fst]. apply in_map, Hin.
Qed.

Lemma minimax_with_picks_candidate cutoff fuel maximizer depth B pm lo hi st move sc st' :
  minimax_with cutoff fuel maximizer depth B pm lo hi st = (Ret (move, sc), st') ->
  In move (map snd (cap_x B (fst pm))) \/ In move (map snd (cap_o B (snd pm))).
Proof.
  destruct fuel as [| fuel]; [discriminate |].
  rewrite minimax_with_S. intros H.
  assert (Hm : In move (map snd (move_order maximizer (cap_x B (fst pm))
                                            (cap_o B (snd pm))))).
  { match type of H with
    | after_loop _ (for_loop ?r ?c ?m ?d ?px ?po ?poss ?s0) = _ =>
        pose proof (for_loop_moves r c m d px po poss s0) as Hl;
        destruct (for_loop r c m d px po poss s0) as [s' | s' | r0 st0]
    end; simpl in H, Hl.
    - inversion H as [[He Hs]]. apply extremal_In in He.
      apply (Hl ltac:(intros c [])) in He. exact He.
    - inversion H as [[He Hs]]. apply extremal_In in He.
      apply (Hl ltac:(intros c [])) in He. exact He.
    - inversion H; subst. apply (Hl ltac:(intros c [])). }
  apply in_map_iff in Hm. destruct Hm as [c [<- Hc]].
  apply move_order_In in Hc. destruct Hc; [left | right]; apply in_map; assumption.
Qed.

(** X1. The move [minimax] returns is the move of an entry of the
    candidate lists it was given, after the cap. *)
Theorem minimax_returns_a_candidate fuel maximizer depth B pm lo hi st move sc st' :
  minimax fuel maximizer depth B pm lo hi st = (Ret (move, sc), st') ->
  In move (map snd (cap_x B (fst pm))) \/ In move (map snd (cap_o B (snd pm))).
Proof. apply minimax_with_picks_candidate. Qed.

Lemma get_move_legal_own_mark fuel self_mark depth B st move st' :
  get_move fuel self_mark depth B st = (Ret move, st') ->
  check_legal (board st) move = true /\ snd move = self_mark.
Proof.
  unfold get_move.
  pose proof (get_possible_moves_lists st (mark_eqb self_mark O)) as [Hst [Hx [Ho _]]].
  destruct (get_possible_moves st (mark_eqb self_mark O)) as [[px po] st0].
  cbn [fst snd] in *. subst st0.
  destruct (minimax _ _ _ _ _ _ _ st) as [[[mv sc] | e |] st1] eqn:E;
    intros H; inversion H; subst.
  apply minimax_with_picks_candidate in E. cbn [fst snd] in E.
  assert (Hc : exists c, snd c = move /\
                 informative_legal (board st)
                   (if mark_eqb self_mark O then O else X) c).
  { destruct E as [E | E]; apply in_map_iff in E; destruct E as [c [Hc E]];
      exists c; (split; [exact Hc |]).
    - apply slice_to_In, slice_to_In in E. apply Hx in E. tauto.
    - apply slice_from_In, slice_from_In in E. apply Ho in E. tauto. }
  destruct Hc as [c [<- [ty [tx [row [_ [_ [Hl [-> _]]]]]]]]].
  cbn [snd]. split; [exact Hl |]. destruct self_mark; reflexivity.
Qed.

(** X2. The move [get_move] returns is legal on the board it was given
    and carries the AI's own mark. *)
Theorem get_move_returns_legal_move fuel self_mark depth B st move st' :
  get_move fuel self_mark depth B st = (Ret move, st') ->
  check_legal (board st) move = true /\ snd move = self_mark.
Proof. apply get_move_legal_own_mark. Qed.

End Iterations.

(** ** The floor and the ceiling of the depth *)

Section Depths.
Context {Board TileState : Type} `{API : BoardAPI Board TileState}.

Local Abbreviation State := (AIState Board).
Local Abbreviation Call :=
  (bool -> Z -> list Cand * list Cand -> Score -> Score ->
   State -> Res (Move * Score) * State).

Implicit Types (rec : Call) (s : @LoopState Board) (st : State) (cand : Cand).

(** At the last ply the nested call is never made. *)
Lemma nxt_ply_depth1 rec maximizer poss_x poss_o move (b1 : Board)
    (orig : list (Pos * TileState)) s st2 :
  nxt_ply rec maximizer 1 poss_x poss_o move b1 orig s st2
  = (Ret (Num (score_board b1)), st2).
Proof. reflexivity. Qed.

Lemma after_loop_out rec cutoff maximizer depth poss_x poss_o
    (Inv : @LoopState Board -> Prop) (Out : Move * Score -> Prop) poss s r st' :
  (forall s', Inv s' -> forall c, In c (choices s') -> Out c) ->
  match for_loop rec cutoff maximizer depth poss_x poss_o poss s with
  | Next s' | Break s' => Inv s'
  | Leave (Ret r0) _ => Out r0
  | Leave _ _ => True
  end ->
  after_loop maximizer (for_loop rec cutoff maximizer depth poss_x poss_o poss s)
  = (Ret r, st') ->
  Out r.
Proof.
  intros Hinv Hfl H.
  destruct (for_loop rec cutoff maximizer depth poss_x poss_o poss s)
    as [s' | s' | r0 st0]; simpl in H.
  - inversion H as [[He Hs]]. apply extremal_In in He. eapply Hinv; eassumption.
  - inversion H as [[He Hs]]. apply extremal_In in He. eapply Hinv; eassumption.
  - inversion H; subst. exact Hfl.
Qed.

(** X5. A search started with [depth <= 0] never reaches the test
    [depth == 1]: no position is scored statically, and a score it
    returns is one of the two infinities. *)
Theorem nonpositive_depth_never_scores cutoff fuel :
  forall maximizer depth B pm lo hi st move sc st',
    depth <= 0 ->
    minimax_with cutoff fuel maximizer depth B pm lo hi st = (Ret (move, sc), st') ->
    sc = PosInf \/ sc = NegInf.
Proof.
  induction fuel as [| fuel IH];
    intros maximizer depth B pm lo hi st move sc st' Hd H; [discriminate |].
  rewrite minimax_with_S in H.
  refine (after_loop_out _ _ _ _ _ _
            (fun s0 => forall c, In c (choices s0) -> snd c = PosInf \/ snd c = NegInf)
            (fun r => snd r = PosInf \/ snd r = NegInf)
            _ _ (move, sc) st' (fun s' Hs' => Hs') _ H).
  apply for_loop_invariant; [| intros c []].
  intros cand s0 _ Hs0.
  match goal with
  | |- match loop_body ?r ?c ?m ?d ?px ?po _ _ with _ => _ end =>
      pose proof (loop_body_cases r c m d px po cand s0) as Hc;
      destruct (loop_body r c m d px po cand s0) as [s' | s' | [r0 | e |] st0]
  end; try exact I.
  - destruct Hc as [_ [v [Hv ->]]]. intros c Hc. apply in_app_or in Hc.
    destruct Hc as [Hc | [<- | []]]; [auto |]. cbn [snd].
    revert Hv. unfold nxt_ply.
    destruct (depth =? 1) eqn:D; [apply Z.eqb_eq in D; lia |].
    match goal with
    | |- context [minimax_with ?c ?f ?m ?d ?b ?p ?a ?h ?s1] =>
        destruct (minimax_with c f m d b p a h s1) as [[[mv1 sc1] | e |] st1] eqn:E
    end; simpl; intros Hv; inversion Hv; subst.
    eapply IH; [| exact E]. lia.
  - destruct Hc as [_ [v [Hv ->]]]. intros c Hc. apply in_app_or in Hc.
    destruct Hc as [Hc | [<- | []]]; [auto |]. cbn [snd].
    revert Hv. unfold nxt_ply.
    destruct (depth =? 1) eqn:D; [apply Z.eqb_eq in D; lia |].
    match goal with
    | |- context [minimax_with ?c ?f ?m ?d ?b ?p ?a ?h ?s1] =>
        destruct (minimax_with c f m d b p a h s1) as [[[mv1 sc1] | e |] st1] eqn:E
    end; simpl; intros Hv; inversion Hv; subst.
    eapply IH; [| exact E]. lia.
  - destruct Hc as [_ ->]. cbn [snd]. destruct maximizer; auto.
Qed.

(** *** Fuel *)

Section SameAnswers.
Variables rec1 rec2 : Call.
Hypothesis rec_agree : forall m d pm lo hi st,
  fst (rec1 m d pm lo hi st) <> OutOfFuel ->
  rec2 m d pm lo hi st = rec1 m d pm lo hi st.
Variables (cutoff maximizer : bool) (depth : Z) (poss_x poss_o : list Cand).

Lemma loop_body_agree cand s :
  (forall st', loop_body rec1 cutoff maximizer depth poss_x poss_o cand s
               <> Leave OutOfFuel st') ->
  loop_body rec2 cutoff maximizer depth poss_x poss_o cand s
  = loop_body rec1 cutoff maximizer depth poss_x poss_o cand s.
Proof.
  rewrite !loop_body_unfold; cbv zeta.
  destruct (check_win _ _); [reflexivity |].
  unfold nxt_ply. destruct (depth =? 1); [reflexivity |].
  match goal with
  | |- context [rec1 ?m ?d ?pm ?a ?b ?st0] =>
      pose proof (rec_agree m d pm a b st0) as Ha;
      destruct (rec1 m d pm a b st0) as [[[mv sc] | e |] st1] eqn:E
  end; cbn [fst snd] in *.
  - intros _. rewrite Ha by discriminate. reflexivity.
  - intros _. rewrite Ha by discriminate. reflexivity.
  - intros Hne. exfalso. eapply Hne. reflexivity.
Qed.

Lemma for_loop_agree poss s :
  (forall st', for_loop rec1 cutoff maximizer depth poss_x poss_o poss s
               <> Leave OutOfFuel st') ->
  for_loop rec2 cutoff maximizer depth poss_x poss_o poss s
  = for_loop rec1 cutoff maximizer depth poss_x poss_o poss s.
Proof.
  revert s. induction poss as [| c poss IH]; intros s Hne; simpl in *;
    [reflexivity |].
  rewrite loop_body_agree.
  - destruct (loop_body rec1 cutoff maximizer depth poss_x poss_o c s)
      as [s' | s' | r st0]; [apply IH, Hne | reflexivity | reflexivity].
  - intros st' E. rewrite E in Hne. eapply Hne. reflexivity.
Qed.

End SameAnswers.

Lemma minimax_with_one_more cutoff fuel :
  forall maximizer depth B pm lo hi st,
    fst (minimax_with cutoff fuel maximizer depth B pm lo hi st) <> OutOfFuel ->
    minimax_with cutoff (S fuel) maximizer depth B pm lo hi st
    = minimax_with cutoff fuel maximizer depth B pm lo hi st.
Proof.
  induction fuel as [| fuel IH]; intros maximizer depth B pm lo hi st Hne.
  - exfalso. apply Hne. reflexivity.
  - rewrite (minimax_with_S cutoff (S fuel)), (minimax_with_S cutoff fuel).
    rewrite (minimax_with_S cutoff fuel) in Hne.
    f_equal. apply for_loop_agree.
    + intros m d p a b st0. apply IH.
    + intros st' E. rewrite E in Hne. apply Hne. reflexivity.
Qed.

Lemma minimax_with_more_fuel cutoff fuel extra :
  forall maximizer depth B pm lo hi st,
    fst (minimax_with cutoff fuel maximizer depth B pm lo hi st) <> OutOfFuel ->
    minimax_with cutoff (extra + fuel) maximizer depth B pm lo hi st
    = minimax_with cutoff fuel maximizer depth B pm lo hi st.
Proof.
  induction extra as [| extra IH]; intros maximizer depth B pm lo hi st Hne;
    [reflexivity |].
  change (S extra + fuel)%nat with (S (extra + fuel)).
  rewrite minimax_with_one_more; [apply IH, Hne |].
  rewrite IH by exact Hne. exact Hne.
Qed.

(** X4. A search of depth [depth >= 1] nests exactly as many calls as
    the depth allows: with fuel for [depth] nested calls it returns or
    raises, and more fuel changes neither the result nor the state. *)
Theorem minimax_terminates_within_depth fuel maximizer depth B pm lo hi st :
  1 <= depth ->
  (Z.to_nat depth <= fuel)%nat ->
  fst (minimax fuel maximizer depth B pm lo hi st) <> OutOfFuel /\
  minimax fuel maximizer depth B pm lo hi st
  = minimax (Z.to_nat depth) maximizer depth B pm lo hi st.
Proof.
  intros Hd Hf. unfold minimax.
  assert (Hne : fst (minimax_with true (Z.to_nat depth) maximizer depth B pm lo hi st)
                <> OutOfFuel) by (apply minimax_with_answers; lia).
  replace fuel with ((fuel - Z.to_nat depth) + Z.to_nat depth)%nat by lia.
  rewrite minimax_with_more_fuel by exact Hne. split; [exact Hne | reflexivity].
Qed.

(** *** Degenerate caps *)

(** X6. The cap is not validated.  With [branch_factor = 1] the
    minimizer-favoring list is emptied and one entry of the other list
    is kept; with [0] the minimizer-favoring list is emptied and the
    maximizer-favoring list is not cut at all; with a negative value the
    slices drop entries from the favourable end instead of keeping
    them. *)
Theorem degenerate_caps (poss_x poss_o : list Cand) :
  (cap_x 1 poss_x = [] /\ cap_o 1 poss_o = last_entries 1 poss_o) /\
  (cap_x 0 poss_x = [] /\ cap_o 0 poss_o = poss_o) /\
  (forall B, B < 0 ->
     cap_x B poss_x = firstn (length poss_x - Z.to_nat ((1 - B) / 2)) poss_x /\
     cap_o B poss_o = skipn (Z.to_nat ((- B) / 2)) poss_o).
Proof.
  split; [| split].
  - split; [reflexivity |]. apply (cap_o_last 1). lia.
  - split; reflexivity.
  - intros B HB. unfold cap_x, cap_o, slice_to, slice_from.
    assert (H1 : B / 2 < 0) by (apply Z.div_lt_upper_bound; lia).
    assert (H2 : 0 <= (- B) / 2) by (apply Z.div_pos; lia).
    destruct (0 <=? B / 2) eqn:E1; [apply Z.leb_le in E1; lia |].
    destruct (0 <=? (- B) / 2) eqn:E2; [| apply Z.leb_gt in E2; lia].
    split; [| reflexivity]. f_equal.
    pose proof (neg_half_is_ceiling (- B)) as Hc.
    replace (- - B) with B in Hc by lia.
    replace (- B + 1) with (1 - B) in Hc by lia. lia.
Qed.

End Depths.

(** ** The last ply and the root *)

Lemma first_best_snoc (better : Score -> Score -> bool) (cur x : Move * Score)
    (l : list (Move * Score)) :
  first_best better cur (l ++ [x]) =
  if better (snd x) (snd (first_best better cur l)) then x
  else first_best better cur l.
Proof.
  revert cur. induction l as [| c l IH]; intros cur; simpl; [reflexivity |].
  apply IH.
Qed.

Lemma smax_same_choice (b v m : Score) :
  smax b v = smax b m ->
  score_gtb v b = score_gtb m b /\ (score_gtb v b = true -> v = m).
Proof. score_crush. Qed.

Lemma smin_same_choice (b v m : Score) :
  smin b v = smin b m ->
  score_ltb v b = score_ltb m b /\ (score_ltb v b = true -> v = m).
Proof. score_crush. Qed.

(** Two lists of choices with the same selection keep the same
    selection when each receives a choice for the same move, provided
    their best scores stay equal. *)
Lemma extremal_snoc_agree (maximizer : bool) (chP chE : list (Move * Score))
    (move : Move) (v m : Score) :
  extremal maximizer chP = extremal maximizer chE ->
  best_of maximizer (chP ++ [(move, v)]) = best_of maximizer (chE ++ [(move, m)]) ->
  extremal maximizer (chP ++ [(move, v)]) = extremal maximizer (chE ++ [(move, m)]).
Proof.
  intros He Hb. rewrite !best_of_snoc in Hb. cbn [snd] in Hb.
  destruct chP as [| cP tP], chE as [| cE tE]; simpl in He; try discriminate.
  - unfold best_of in Hb; simpl in Hb. simpl.
    destruct maximizer;
      [rewrite !(proj2 (smax_neg_inf _)) in Hb
      | rewrite !(proj2 (smin_pos_inf _)) in Hb]; subst; reflexivity.
  - inversion He as [Hr].
    assert (HP : extremal maximizer (cP :: tP) =
                 Ret (first_best (if maximizer then score_gtb else score_ltb) cP tP))
      by reflexivity.
    assert (HE : extremal maximizer (cE :: tE) =
                 Ret (first_best (if maximizer then score_gtb else score_ltb) cE tE))
      by reflexivity.
    apply extremal_best in HP. apply extremal_best in HE.
    destruct HP as [HP _]. destruct HE as [HE _].
    rewrite <- HP, <- HE, <- Hr in Hb.
    simpl. rewrite !first_best_snoc. cbn [snd]. rewrite <- Hr. f_equal.
    destruct maximizer.
    + apply smax_same_choice in Hb. destruct Hb as [Hg Hv].
      rewrite <- Hg. destruct (score_gtb v _) eqn:G; [| reflexivity].
      rewrite (Hv eq_refl). reflexivity.
    + apply smin_same_choice in Hb. destruct Hb as [Hg Hv].
      rewrite <- Hg. destruct (score_ltb v _) eqn:G; [| reflexivity].
      rewrite (Hv eq_refl). reflexivity.
Qed.

Section LastPlyAndRoot.
Context {Board TileState : Type} `{API : BoardAPI Board TileState}.

Local Abbreviation State := (AIState Board).
Local Abbreviation Call :=
  (bool -> Z -> list Cand * list Cand -> Score -> Score ->
   State -> Res (Move * Score) * State).

Implicit Types (rec : Call) (s sE sP : @LoopState Board) (st : State) (cand : Cand).

(** With the bound of the other side still infinite, neither [break]
    test can fire. *)
Lemma loop_body_uncut rec (maximizer : bool) depth poss_x poss_o cand s :
  (if maximizer then min_worst s = PosInf else max_worst s = NegInf) ->
  loop_body rec true maximizer depth poss_x poss_o cand s
  = loop_body rec false maximizer depth poss_x poss_o cand s /\
  forall s', loop_body rec false maximizer depth poss_x poss_o cand s = Next s' ->
             if maximizer then min_worst s' = PosInf else max_worst s' = NegInf.
Proof.
  intros Hb. rewrite !loop_body_unfold; cbv zeta.
  destruct (check_win _ _); [split; [reflexivity | discriminate] |].
  destruct (fst (nxt_ply _ _ _ _ _ _ _ _ _ _)) as [v | e |];
    [| split; [reflexivity | discriminate] ..].
  unfold record_choice. destruct maximizer; rewrite Hb; cbn [andb].
  - replace (score_gtb v PosInf) with false by (destruct v; reflexivity).
    split; [reflexivity |]. intros s' E. inversion E. reflexivity.
  - replace (score_ltb v NegInf) with false by (destruct v; reflexivity).
    split; [reflexivity |]. intros s' E. inversion E. reflexivity.
Qed.

(** X8. At a node entered with the other side's bound still infinite,
    as the root is from [get_move], the loop runs exactly as it would
    without the two [break] tests: the root is never cut. *)
Theorem root_loop_is_never_cut rec (maximizer : bool) depth poss_x poss_o poss s :
  (if maximizer then min_worst s = PosInf else max_worst s = NegInf) ->
  for_loop rec true maximizer depth poss_x poss_o poss s
  = for_loop rec false maximizer depth poss_x poss_o poss s.
Proof.
  revert s. induction poss as [| c poss IH]; intros s Hb; simpl; [reflexivity |].
  destruct (loop_body_uncut rec maximizer depth poss_x poss_o c s Hb) as [-> Hn].
  destruct (loop_body rec false maximizer depth poss_x poss_o c s)
    as [s' | s' | r st0]; try reflexivity.
  apply IH, Hn. reflexivity.
Qed.

(** [undo_change] exactly reverses the [update_board] it is paired with. *)
Hypothesis undo_exact : forall (b : Board) (move : Move),
  undo_change (fst (update_board b move)) (snd (update_board b move)) move = b.

(** X3. At depth 1 nothing is searched: the score returned with a move
    is the static score of the board with that move applied, unless the
    move wins, in which case it is the infinity of the side to move. *)
Theorem last_ply_scores_statically fuel maximizer B pm lo hi st move sc st' :
  minimax fuel maximizer 1 B pm lo hi st = (Ret (move, sc), st') ->
  (check_win (fst (update_board (board st) move)) move = true /\
   sc = if maximizer then PosInf else NegInf) \/
  (check_win (fst (update_board (board st) move)) move = false /\
   sc = Num (score_board (fst (update_board (board st) move)))).
Proof.
  destruct fuel as [| fuel]; [discriminate |].
  unfold minimax. rewrite minimax_with_S. intros H.
  set (scored := fun c : Move * Score =>
         check_win (fst (update_board (board st) (fst c))) (fst c) = false /\
         snd c = Num (score_board (fst (update_board (board st) (fst c))))).
  set (out := fun c : Move * Score =>
         (check_win (fst (update_board (board st) (fst c))) (fst c) = true /\
          snd c = if maximizer then PosInf else NegInf) \/ scored c).
  refine (after_loop_out _ _ _ _ _ _
            (fun s0 => board (ai s0) = board st /\
                       forall c, In c (choices s0) -> scored c)
            out _ _ (move, sc) st' _ _ H).
  { intros s' [_ Hs'] c Hc. right. auto. }
  apply for_loop_invariant; [| split; [reflexivity | intros c []]].
  intros cand s0 _ [Hb0 Hs0].
  match goal with
  | |- match loop_body ?r ?c ?m ?d ?px ?po _ _ with _ => _ end =>
      pose proof (loop_body_cases r c m d px po cand s0) as Hc;
      pose proof (loop_body_board undo_exact r
                    (fun m0 d0 p0 a0 b0 st0 r0 st1 =>
                       minimax_with_board undo_exact true fuel m0 d0
                         default_branch_factor p0 a0 b0 st0 r0 st1)
                    c m d px po cand s0) as Hk;
      destruct (loop_body r c m d px po cand s0) as [s' | s' | [r0 | e |] st0]
  end; try exact I; simpl in Hk; rewrite Hb0 in *.
  - destruct Hc as [W [v [Hv ->]]]. split; [exact Hk |].
    intros c Hc. apply in_app_or in Hc. destruct Hc as [Hc | [<- | []]]; [auto |].
    rewrite nxt_ply_depth1 in Hv. inversion Hv. split; [exact W | reflexivity].
  - destruct Hc as [W [v [Hv ->]]]. split; [exact Hk |].
    intros c Hc. apply in_app_or in Hc. destruct Hc as [Hc | [<- | []]]; [auto |].
    rewrite nxt_ply_depth1 in Hv. inversion Hv. split; [exact W | reflexivity].
  - destruct Hc as [W ->]. left. split; [exact W | reflexivity].
Qed.

Section RootNode.
Variables recE recP : Call.
Hypothesis recE_keeps : forall m d pm lo hi st r st',
  recE m d pm lo hi st = (Ret r, st') -> board st' = board st.
Hypothesis recP_keeps : forall m d pm lo hi st r st',
  recP m d pm lo hi st = (Ret r, st') -> board st' = board st.
Hypothesis rec_sim : forall m d pm lo hi loE hiE stE stP rE stE',
  sle lo hi -> board stE = board stP ->
  recE m d pm loE hiE stE = (Ret rE, stE') ->
  exists rP stP', recP m d pm lo hi stP = (Ret rP, stP') /\
                  within lo hi (snd rP) (snd rE).
Variables (maximizer : bool) (depth : Z) (poss_x poss_o : list Cand).

Lemma loop_inv_root_best sE sP :
  loop_inv maximizer NegInf PosInf sE sP ->
  best_of maximizer (choices sP) = best_of maximizer (choices sE).
Proof.
  intros [_ [_ [_ Hm]]]. cbv zeta in Hm.
  destruct maximizer; destruct Hm as [_ [_ [_ [_ H5]]]]; symmetry; apply H5;
    generalize (best_of true (choices sP)); generalize (best_of false (choices sP));
    intros x y; score_crush.
Qed.

Lemma for_loop_sim_root poss : forall sE sP rE stE',
  loop_inv maximizer NegInf PosInf sE sP ->
  extremal maximizer (choices sP) = extremal maximizer (choices sE) ->
  after_loop maximizer
    (for_loop recE false maximizer depth poss_x poss_o poss sE) = (Ret rE, stE') ->
  exists stP',
    after_loop maximizer
      (for_loop recP true maximizer depth poss_x poss_o poss sP) = (Ret rE, stP').
Proof.
  induction poss as [| c poss IH]; intros sE sP rE stE' Hinv Hext H.
  - simpl in *. inversion H as [[He Hs]]. rewrite Hext, He. eauto.
  - simpl in H |- *.
    pose proof (loop_body_sim recE recP recE_keeps recP_keeps rec_sim
                  maximizer depth poss_x poss_o NegInf PosInf c sE sP Hinv) as Hstep.
    pose proof (loop_body_cases recE false maximizer depth poss_x poss_o c sE) as HcE.
    pose proof (loop_body_cases recP true maximizer depth poss_x poss_o c sP) as HcP.
    destruct (loop_body recE false maximizer depth poss_x poss_o c sE)
      as [sE' | sE' | [r | e |] stE0] eqn:EE.
    + destruct (loop_body recP true maximizer depth poss_x poss_o c sP)
        as [sP' | sP' | rP0 stP0] eqn:EP.
      * refine (IH sE' sP' rE stE' Hstep _ H).
        destruct HcE as [_ [m [_ HchE]]]. destruct HcP as [_ [v [_ HchP]]].
        pose proof (loop_inv_root_best _ _ Hstep) as Hb.
        rewrite HchE, HchP in Hb |- *.
        apply extremal_snoc_agree; assumption.
      * exfalso. destruct Hstep as [_ Hbr].
        destruct maximizer; destruct Hbr as [Hbr _]; revert Hbr;
          generalize (best_of true (choices sP'));
          generalize (best_of false (choices sP'));
          intros x y; score_crush.
      * contradiction.
    + contradiction.
    + destruct Hstep as [stP' EP]. rewrite EP. simpl in *.
      inversion H; subst. eauto.
    + simpl in H. discriminate.
    + simpl in H. discriminate.
Qed.

End RootNode.

(** X9. Started with the bounds of [get_move], the search with the
    cutoff tests returns the very pair (move, score) the search without
    them returns, whenever the latter returns: the cutoff does not
    change the move the AI plays. *)
Theorem cutoff_preserves_move fuel maximizer depth B pm st rE stE :
  minimax_exhaustive fuel maximizer depth B pm NegInf PosInf st = (Ret rE, stE) ->
  exists stP, minimax fuel maximizer depth B pm NegInf PosInf st = (Ret rE, stP).
Proof.
  destruct fuel as [| fuel]; [discriminate |].
  unfold minimax_exhaustive, minimax. rewrite !minimax_with_S. intros H.
  refine (for_loop_sim_root
            (fun m d p a b st0 =>
               minimax_with false fuel m d default_branch_factor p a b st0)
            (fun m d p a b st0 =>
               minimax_with true fuel m d default_branch_factor p a b st0)
            _ _ _ maximizer depth _ _ _
            (mkLoop [] NegInf PosInf st) (mkLoop [] NegInf PosInf st) rE stE _ _ H).
  - intros m d p a b st0 r st1. apply (minimax_with_board undo_exact).
  - intros m d p a b st0 r st1. apply (minimax_with_board undo_exact).
  - intros m d p a b aE bE st0 st1 r st2. apply (minimax_with_sim undo_exact).
  - unfold loop_inv; cbn [choices max_worst min_worst ai board].
    split; [reflexivity |]. split; [reflexivity |]. split; [reflexivity |].
    unfold best_of; simpl.
    destruct maximizer; repeat split; try score_crush.
  - reflexivity.
Qed.

End LastPlyAndRoot.

(** ** The cutoff only saves work *)

Section Work.
Context {Board TileState : Type} `{API : BoardAPI Board TileState}.

Local Abbreviation State := (AIState Board).
Local Abbreviation Call :=
  (bool -> Z -> list Cand * list Cand -> Score -> Score ->
   State -> Res (Move * Score) * State).

Implicit Types (rec : Call) (s sE sP : @LoopState Board) (st : State) (cand : Cand).

Section CounterGrows.
Variable rec : Call.
Hypothesis rec_grows : forall m d pm lo hi st,
  minimax_stack_depth st <= minimax_stack_depth (snd (rec m d pm lo hi st)).
Variables (cutoff maximizer : bool) (depth : Z) (poss_x poss_o : list Cand).

Lemma loop_body_counter_grows cand s :
  minimax_stack_depth (ai s) <=
  minimax_stack_depth
    (flow_state (loop_body rec cutoff maximizer depth poss_x poss_o cand s)).
Proof.
  rewrite loop_body_unfold; cbv zeta.
  destruct (check_win _ _); [simpl; lia |].
  set (b1 := fst (update_board (board (ai s)) (snd cand))).
  set (orig := snd (update_board (board (ai s)) (snd cand))).
  assert (Hn : minimax_stack_depth (ai s) + 1 <=
               minimax_stack_depth
                 (snd (nxt_ply rec maximizer depth poss_x poss_o (snd cand) b1 orig s
                         (mkState b1 (minimax_stack_depth (ai s) + 1))))).
  { unfold nxt_ply. destruct (depth =? 1); [simpl; lia |].
    match goal with
    | |- context [rec ?m ?d ?pm ?a ?b ?st0] =>
        pose proof (rec_grows m d pm a b st0) as Hg;
        destruct (rec m d pm a b st0) as [[[mv sc] | e |] st1]
    end; simpl in *; lia. }
  destruct (fst (nxt_ply _ _ _ _ _ _ _ _ _ _)) as [v | e |];
    [rewrite record_choice_counter | simpl | simpl]; lia.
Qed.

Lemma for_loop_counter_grows poss s :
  minimax_stack_depth (ai s) <=
  minimax_stack_depth
    (flow_state (for_loop rec cutoff maximizer depth poss_x poss_o poss s)).
Proof.
  revert s. induction poss as [| c poss IH]; intros s; simpl; [lia |].
  pose proof (loop_body_counter_grows c s) as Hc.
  destruct (loop_body rec cutoff maximizer depth poss_x poss_o c s)
    as [s' | s' | r st0]; simpl in *; [specialize (IH s') | |]; lia.
Qed.

End CounterGrows.

Lemma minimax_with_counter_grows cutoff fuel :
  forall maximizer depth B pm lo hi st,
    minimax_stack_depth st <=
    minimax_stack_depth (snd (minimax_with cutoff fuel maximizer depth B pm lo hi st)).
Proof.
  induction fuel as [| fuel IH]; intros maximizer depth B pm lo hi st.
  - simpl. lia.
  - rewrite minimax_with_S, after_loop_state.
    etransitivity; [| apply for_loop_counter_grows].
    + simpl. lia.
    + intros m d p a b st0. apply IH.
Qed.

Section OneNode.
Variables recE recP : Call.
Hypothesis recE_keeps : forall m d pm lo hi st r st',
  recE m d pm lo hi st = (Ret r, st') -> board st' = board st.
Hypothesis recP_keeps : forall m d pm lo hi st r st',
  recP m d pm lo hi st = (Ret r, st') -> board st' = board st.
Hypothesis recE_grows : forall m d pm lo hi st,
  minimax_stack_depth st <= minimax_stack_depth (snd (recE m d pm lo hi st)).
Hypothesis rec_work : forall m d pm lo hi loE hiE stE stP rE stE',
  board stE = board stP ->
  recE m d pm loE hiE stE = (Ret rE, stE') ->
  exists rP stP', recP m d pm lo hi stP = (Ret rP, stP') /\
    minimax_stack_depth stP' - minimax_stack_depth stP
    <= minimax_stack_depth stE' - minimax_stack_depth stE.
Variables (maximizer : bool) (depth : Z) (poss_x poss_o : list Cand).
(** The counters on entry to the node. *)
Variables (cE0 cP0 : Z).

Lemma nxt_ply_work move (b1 : Board) (orig : list (Pos * TileState)) sE sP cE cP mc :
  fst (nxt_ply recE maximizer depth poss_x poss_o move b1 orig sE (mkState b1 cE))
  = Ret mc ->
  exists v,
    fst (nxt_ply recP maximizer depth poss_x poss_o move b1 orig sP (mkState b1 cP))
    = Ret v /\
    minimax_stack_depth
      (snd (nxt_ply recP maximizer depth poss_x poss_o move b1 orig sP (mkState b1 cP)))
    - cP
    <= minimax_stack_depth
         (snd (nxt_ply recE maximizer depth poss_x poss_o move b1 orig sE (mkState b1 cE)))
       - cE.
Proof.
  unfold nxt_ply. destruct (depth =? 1); simpl.
  - intros _. eexists. split; [reflexivity | lia].
  - destruct (recE _ _ _ _ _ (mkState b1 cE)) as [[[mvE sc] | e |] stE'] eqn:E;
      simpl; try discriminate.
    intros _.
    destruct (rec_work _ _ _ (max_worst sP) (min_worst sP) _ _
                       (mkState b1 cE) (mkState b1 cP) _ _ eq_refl E)
      as [[mvP v] [stP' [EP W]]].
    rewrite EP. simpl in *. exists v. split; [reflexivity | lia].
Qed.

Lemma for_loop_work poss : forall sE sP rE stE',
  board (ai sE) = board (ai sP) /\
  length (choices sE) = length (choices sP) /\
  minimax_stack_depth (ai sP) - cP0 <= minimax_stack_depth (ai sE) - cE0 ->
  after_loop maximizer
    (for_loop recE false maximizer depth poss_x poss_o poss sE) = (Ret rE, stE') ->
  exists rP stP',
    after_loop maximizer
      (for_loop recP true maximizer depth poss_x poss_o poss sP) = (Ret rP, stP') /\
    minimax_stack_depth stP' - cP0 <= minimax_stack_depth stE' - cE0.
Proof.
  induction poss as [| c poss IH]; intros sE sP rE stE' [Hb [Hlen Hw]] H.
  - simpl in *. inversion H as [[He Hs]]. apply extremal_best in He.
    destruct He as [_ Hne].
    assert (HneP : choices sP <> []).
    { intros E. rewrite E in Hlen. destruct (choices sE); [congruence | discriminate]. }
    destruct (extremal_nonempty maximizer _ HneP) as [rP EP].
    exists rP, (ai sP). rewrite EP. split; [reflexivity | exact Hw].
  - simpl in H |- *. revert H. rewrite !loop_body_unfold. cbv zeta. rewrite Hb.
    set (move := snd c).
    set (b1 := fst (update_board (board (ai sP)) move)).
    set (orig := snd (update_board (board (ai sP)) move)).
    destruct (check_win b1 move).
    { simpl. intros H. inversion H; subst. eexists. eexists.
      split; [reflexivity |]. simpl. lia. }
    destruct (fst (nxt_ply recE _ _ _ _ _ _ _ _ _)) as [mc | e |] eqn:EE;
      [| simpl; discriminate ..].
    pose proof (nxt_ply_board recE recE_keeps maximizer depth poss_x poss_o
                              _ _ _ _ _ _ EE) as HbE.
    destruct (nxt_ply_work move b1 orig sE sP _ (minimax_stack_depth (ai sP) + 1)
                           mc EE) as [v [EP Hwork]].
    pose proof (nxt_ply_board recP recP_keeps maximizer depth poss_x poss_o
                              _ _ _ _ _ _ EP) as HbP.
    rewrite EP. simpl in HbE, HbP.
    set (stE3 := snd (nxt_ply recE maximizer depth poss_x poss_o move b1 orig sE _)) in *.
    set (stP3 := snd (nxt_ply recP maximizer depth poss_x poss_o move b1 orig sP _)) in *.
    pose proof (record_choice_extends false maximizer move mc orig sE stE3) as XE.
    pose proof (record_choice_counter false maximizer move mc orig sE stE3) as CE.
    pose proof (record_choice_board false maximizer move mc orig sE stE3) as BE.
    pose proof (record_choice_extends true maximizer move v orig sP stP3) as XP.
    pose proof (record_choice_counter true maximizer move v orig sP stP3) as CP.
    pose proof (record_choice_board true maximizer move v orig sP stP3) as BP.
    assert (NbE : forall s0, record_choice false maximizer move mc orig sE stE3
                             <> Break s0).
    { intros s0. unfold record_choice. destruct maximizer; discriminate. }
    destruct (record_choice false maximizer move mc orig sE stE3)
      as [sE' | sE' | rE0 stE0]; [| exfalso; eapply NbE; reflexivity | contradiction].
    simpl in CE, BE.
    destruct (record_choice true maximizer move v orig sP stP3)
      as [sP' | sP' | rP0 stP0]; [| | contradiction]; simpl in CP, BP.
    + intros H. apply (IH sE' sP' rE stE'); [| exact H].
      split; [rewrite BE, BP, HbE, HbP; reflexivity |].
      split; [rewrite XE, XP, !length_app, Hlen; reflexivity |].
      rewrite CE, CP. lia.
    + intros H.
      assert (Hne : choices sP' <> [])
        by (rewrite XP; destruct (choices sP); discriminate).
      destruct (extremal_nonempty maximizer _ Hne) as [rP ErP].
      exists rP, (ai sP'). simpl. rewrite ErP. split; [reflexivity |].
      pose proof (for_loop_counter_grows recE recE_grows false maximizer depth
                    poss_x poss_o poss sE') as Hg.
      rewrite <- after_loop_state with (maximizer := maximizer) in Hg.
      rewrite H in Hg. simpl in Hg. rewrite CE in Hg. rewrite CP. lia.
Qed.

End OneNode.

(** [undo_change] exactly reverses the [update_board] it is paired with. *)
Hypothesis undo_exact : forall (b : Board) (move : Move),
  undo_change (fst (update_board b move)) (snd (update_board b move)) move = b.

Lemma minimax_with_work fuel :
  forall maximizer depth B pm lo hi loE hiE stE stP rE stE',
    board stE = board stP ->
    minimax_with false fuel maximizer depth B pm loE hiE stE = (Ret rE, stE') ->
    exists rP stP',
      minimax_with true fuel maximizer depth B pm lo hi stP = (Ret rP, stP') /\
      minimax_stack_depth stP' - minimax_stack_depth stP
      <= minimax_stack_depth stE' - minimax_stack_depth stE.
Proof.
  induction fuel as [| fuel IH];
    intros maximizer depth B pm lo hi loE hiE stE stP rE stE' Hb H.
  - discriminate.
  - rewrite minimax_with_S in H |- *.
    refine (for_loop_work
              (fun m d p a b st0 =>
                 minimax_with false fuel m d default_branch_factor p a b st0)
              (fun m d p a b st0 =>
                 minimax_with true fuel m d default_branch_factor p a b st0)
              _ _ _ _ maximizer depth _ _
              (minimax_stack_depth stE) (minimax_stack_depth stP) _
              (mkLoop [] loE hiE stE) (mkLoop [] lo hi stP) rE stE' _ H).
    + intros m d p a b st0 r st1. apply (minimax_with_board undo_exact).
    + intros m d p a b st0 r st1. apply (minimax_with_board undo_exact).
    + intros m d p a b st0. apply minimax_with_counter_grows.
    + intros m d p a b aE bE st0 st1 r st2. apply IH.
    + split; [exact Hb |]. split; [reflexivity |]. simpl. lia.
Qed.

(** X10. Whatever bounds it is given, the search with the cutoff tests
    returns whenever the search without them does, and counts no more
    examined candidates in [minimax_stack_depth]: the cutoff can only
    save work. *)
Theorem cutoff_never_costs_more fuel maximizer depth B pm lo hi st rE stE :
  minimax_exhaustive fuel maximizer depth B pm lo hi st = (Ret rE, stE) ->
  exists rP stP,
    minimax fuel maximizer depth B pm lo hi st = (Ret rP, stP) /\
    minimax_stack_depth stP <= minimax_stack_depth stE.
Proof.
  intros H.
  destruct (minimax_with_work fuel maximizer depth B pm lo hi lo hi st st rE stE
              eq_refl H) as [rP [stP [HP Hw]]].
  exists rP, stP. split; [exact HP | lia].
Qed.

End Work.

(** ** Candidate lists stay in order *)

Section SortedLists.
Context {A : Type} (R : A -> A -> Prop).

Lemma sorted_firstn (n : nat) (l : list A) :
  StronglySorted R l -> StronglySorted R (firstn n l).
Proof.
  intros H. revert n. induction H as [| a l Hl IH Ha]; intros [| n]; simpl;
    try constructor; auto.
  rewrite Forall_forall in *. intros x Hx. apply Ha.
  rewrite <- (firstn_skipn n l). apply in_or_app. auto.
Qed.

Lemma sorted_skipn (n : nat) (l : list A) :
  StronglySorted R l -> StronglySorted R (skipn n l).
Proof.
  intros H. revert n. induction H as [| a l Hl IH Ha]; intros [| n]; simpl;
    try constructor; auto.
Qed.

Lemma sorted_filter (f : A -> bool) (l : list A) :
  StronglySorted R l -> StronglySorted R (filter f l).
Proof.
  induction 1 as [| a l Hl IH Ha]; simpl; [constructor |].
  destruct (f a); [| exact IH]. constructor; [exact IH |].
  rewrite Forall_forall in *. intros x Hx. apply filter_In in Hx. apply Ha, Hx.
Qed.

End SortedLists.

Lemma sorted_map_same_key {A : Type} (key : A -> Z) (f : A -> A) (l : list A) :
  (forall a, key (f a) = key a) ->
  StronglySorted (fun u v => key u <= key v) l ->
  StronglySorted (fun u v => key u <= key v) (map f l).
Proof.
  intros Hk. induction 1 as [| a l Hl IH Ha]; simpl; constructor; [exact IH |].
  rewrite Forall_forall in *. intros x Hx. apply in_map_iff in Hx.
  destruct Hx as [y [<- Hy]]. rewrite !Hk. apply Ha, Hy.
Qed.

Lemma sorted_slice_to {A : Type} (R : A -> A -> Prop) (l : list A) (k : Z) :
  StronglySorted R l -> StronglySorted R (slice_to l k).
Proof. unfold slice_to. destruct (0 <=? k); apply sorted_firstn. Qed.

Lemma sorted_slice_from {A : Type} (R : A -> A -> Prop) (l : list A) (k : Z) :
  StronglySorted R l -> StronglySorted R (slice_from l k).
Proof. unfold slice_from. destruct (0 <=? k); apply sorted_skipn. Qed.

Section OrderedLists.
Context {Board TileState : Type} `{API : BoardAPI Board TileState}.

(** X7. The candidate lists are in order all the way down: the lists
    [get_possible_moves] returns are in order for the side to move, the
    cap keeps them so, and from lists in order the lists built for the
    next ply are in order for the next mover. *)
Theorem candidate_lists_stay_ordered :
  (forall (st : AIState Board) (maximizer : bool),
     lists_ordered (if maximizer then O else X)
                   (fst (get_possible_moves st maximizer))) /\
  (forall B mark pm,
     lists_ordered mark pm ->
     lists_ordered mark (cap_x B (fst pm), cap_o B (snd pm))) /\
  (forall (b : Board) (orig : list (Pos * TileState)) move mark poss_x poss_o,
     lists_ordered mark (poss_x, poss_o) ->
     lists_ordered (nxt_mark_of (snd move))
                   (new_poss_moves b orig move poss_x poss_o)).
Proof.
  split; [| split].
  - intros st maximizer.
    pose proof (get_possible_moves_lists st maximizer) as [_ [Hx [Ho [Sx So]]]].
    split; [exact Sx |]. split; [exact So |].
    split; apply Forall_forall; intros c Hc;
      [apply Hx in Hc | apply Ho in Hc];
      destruct Hc as [[ty [tx [row [_ [_ [_ [-> _]]]]]]] Hk];
      (split; [exact Hk | reflexivity]).
  - intros B mark pm [Sx [So [Fx Fo]]]. unfold lists_ordered, cap_x, cap_o.
    cbn [fst snd].
    split; [apply sorted_slice_to, Sx |].
    split; [apply sorted_slice_from, So |].
    rewrite Forall_forall in Fx, Fo.
    split; apply Forall_forall; intros c Hc;
      [apply Fx, (slice_to_In _ _ _ Hc) | apply Fo, (slice_from_In _ _ _ Hc)].
  - intros b orig move mark poss_x poss_o [Sx [So [Fx Fo]]].
    cbn [fst snd] in *. rewrite Forall_forall in Fx, Fo.
    unfold lists_ordered.
    split; [| split; [| split]].
    + unfold new_poss_moves; cbn [fst].
      apply sorted_map_same_key; [reflexivity |].
      apply sorted_filter, sorted_sorted.
    + unfold new_poss_moves; cbn [snd].
      apply sorted_map_same_key; [reflexivity |].
      apply sorted_filter, sorted_sorted.
    + apply Forall_forall. intros c Hc. apply new_poss_moves_x_In in Hc.
      destruct Hc as [c0 [-> [_ [Hc | [Hk _]]]]];
        (split; [| reflexivity]); [apply (Fx c0 Hc) | exact Hk].
    + apply Forall_forall. intros c Hc. apply new_poss_moves_o_In in Hc.
      destruct Hc as [c0 [-> [_ [Hc | [Hk _]]]]];
        (split; [| reflexivity]); [apply (Fo c0 Hc) | exact Hk].
Qed.

End OrderedLists.

(** ** Players *)

Lemma create_players_nth (k : nat) :
  forall (n : Z) (i : nat) (p : Game.Player),
    nth_error (fst (Game.create_players k n)) i = Some p ->
    Game.player_num p = n + Z.of_nat i /\
    Game.mark p = (if n + Z.of_nat i =? 0 then O else X).
Proof.
  induction k as [| k IH]; intros n i p; simpl.
  - destruct i; discriminate.
  - destruct (Game.create_players k (n + 1)) as [ps n'] eqn:E. simpl.
    destruct i as [| i]; simpl.
    + intros H. inversion H; subst. simpl. rewrite Z.add_0_r. auto.
    + intros H. specialize (IH (n + 1) i p). rewrite E in IH.
      destruct (IH H) as [H1 H2]. rewrite H1, H2.
      replace (n + 1 + Z.of_nat i) with (n + Z.pos (Pos.of_succ_nat i)) by lia.
      auto.
Qed.

(** X11. Of the players created in a process, the first one holds ['O']
    and every later one holds ['X']; their numbers count up from 0, and
    the class counter ends at the number of players created. *)
Theorem only_first_player_holds_O (k : nat) :
  snd (Game.create_players k 0) = Z.of_nat k /\
  forall (i : nat) (p : Game.Player),
    nth_error (fst (Game.create_players k 0)) i = Some p ->
    Game.player_num p = Z.of_nat i /\
    (Game.mark p = O <-> i = 0%nat) /\ (Game.mark p = X <-> i <> 0%nat).
Proof.
  split.
  - assert (H : forall k n, snd (Game.create_players k n) = n + Z.of_nat k).
    { clear k. induction k as [| k IH]; intros n; simpl; [lia |].
      specialize (IH (n + 1)).
      destruct (Game.create_players k (n + 1)) as [ps n']. simpl in *. lia. }
    rewrite H. lia.
  - intros i p Hp. apply create_players_nth in Hp. destruct Hp as [H1 H2].
    rewrite H1, H2. simpl. split; [reflexivity |].
    destruct i; simpl; split; split; intros H; try congruence; try lia;
      try discriminate.
Qed.

(** ** The game loop *)

Section GameLoop.
Context {Board TileState : Type} `{API : BoardAPI Board TileState}.
Variable tile_size : Board -> Z.

Lemma Player_get_move_got (self : Game.Player) (b : Board) (clicks : list (Z * Z))
    (move : Move) (rest : list (Z * Z)) :
  Game.Player_get_move tile_size self b clicks = (Game.Got move, rest) ->
  tile_size b <> 0 /\
  check_legal b move = true /\
  snd move = Game.mark self /\
  exists skipped x y,
    clicks = skipped ++ (x, y) :: rest /\
    move = (x / tile_size b, y / tile_size b, Game.mark self) /\
    Forall (fun xy => check_legal b (fst xy / tile_size b, snd xy / tile_size b,
                                     Game.mark self) = false) skipped.
Proof.
  induction clicks as [| [x y] clicks IH]; simpl; [discriminate |].
  destruct (tile_size b =? 0) eqn:T; [discriminate |]. apply Z.eqb_neq in T.
  destruct (check_legal b (x / tile_size b, y / tile_size b, Game.mark self)) eqn:L.
  - intros H. inversion H; subst. repeat split; auto.
    exists [], x, y. repeat split; auto.
  - intros H. destruct (IH H) as [_ [Hl [Hm [skipped [x0 [y0 [-> [-> Hs]]]]]]]].
    repeat split; auto.
    exists ((x, y) :: skipped), x0, y0. repeat split; auto.
Qed.

(** X12. A human move is never illegal: [Player.get_move] returns the
    tile of the first click that falls on a tile where the player's mark
    may be placed, having passed over every click before it, and the
    move carries the player's mark.  It divides by the tile size, which
    must not be zero. *)
Theorem human_move_is_first_legal_click (self : Game.Player) (b : Board)
    (clicks : list (Z * Z)) (move : Move) (rest : list (Z * Z)) :
  Game.Player_get_move tile_size self b clicks = (Game.Got move, rest) ->
  tile_size b <> 0 /\
  check_legal b move = true /\
  snd move = Game.mark self /\
  exists skipped x y,
    clicks = skipped ++ (x, y) :: rest /\
    move = (x / tile_size b, y / tile_size b, Game.mark self) /\
    Forall (fun xy => check_legal b (fst xy / tile_size b, snd xy / tile_size b,
                                     Game.mark self) = false) skipped.
Proof. apply Player_get_move_got. Qed.

(** [undo_change] exactly reverses the [update_board] it is paired with. *)
Hypothesis undo_exact : forall (b : Board) (move : Move),
  undo_change (fst (update_board b move)) (snd (update_board b move)) move = b.

Lemma get_move_board fuel self_mark depth B (st : AIState Board) move st' :
  get_move fuel self_mark depth B st = (Ret move, st') -> board st' = board st.
Proof.
  unfold get_move; simpl.
  destruct (minimax _ _ _ _ _ _ _ st) as [[[mv sc] | e |] st1] eqn:E;
    intros H; inversion H; subst; simpl.
  eapply (minimax_with_board undo_exact), E.
Qed.

Lemma take_turn_moves fuel player1 player2 turn (st : AIState Board) clicks
    move st' clicks' :
  Game.take_turn tile_size fuel player1 player2 turn st clicks
  = (inl move, st', clicks') ->
  board st' = board st /\
  check_legal (board st) move = true /\
  snd move = (if turn mod 2 =? 0 then Game.mark player1 else Game.mark2 player2).
Proof.
  unfold Game.take_turn.
  assert (Hh : forall p,
             match Game.Player_get_move tile_size p (board st) clicks with
             | (Game.Got move0, rest) => (inl move0, st, rest)
             | (Game.ZeroDivision, rest) => (inr Game.DivisionByZero, st, rest)
             | (Game.NoMoreClicks, rest) => (inr Game.AwaitingClick, st, rest)
             end = (inl move, st', clicks') ->
             board st' = board st /\ check_legal (board st) move = true /\
             snd move = Game.mark p).
  { intros p.
    destruct (Game.Player_get_move tile_size p (board st) clicks)
      as [[mv | |] rest] eqn:E; intros H; inversion H; subst.
    apply Player_get_move_got in E. destruct E as [_ [Hl [Hm _]]]. auto. }
  destruct (turn mod 2 =? 0); [apply Hh |].
  destruct player2 as [p | a]; [apply Hh |]. simpl.
  destruct (get_move fuel (Game.mark (Game.player a)) (Game.minimax_depth a)
                     (Game.branch_factor a) st) as [[mv | e |] st1] eqn:E;
    intros H; inversion H; subst.
  split; [eapply get_move_board, E |].
  eapply get_move_legal_own_mark, E.
Qed.

Lemma main_loop_trace rounds :
  forall fuel player1 player2 turn (st : AIState Board) clicks played e st' played',
    Game.main_loop tile_size rounds fuel player1 player2 turn st clicks played
    = (e, st', played') ->
    exists added,
      played' = played ++ added /\
      Game.played_in_turn (Game.mark player1) (Game.mark2 player2) turn
                          (board st) added.
Proof.
  induction rounds as [| rounds IH];
    intros fuel player1 player2 turn st clicks played e st' played'; simpl.
  - intros H. inversion H; subst. exists []. rewrite app_nil_r. simpl. auto.
  - destruct (Game.take_turn tile_size fuel player1 player2 turn st clicks)
      as [[[move | e0] st1] clicks1] eqn:T.
    + apply take_turn_moves in T. destruct T as [Hb [Hl Hm]].
      destruct (update_board (board st1) move) as [b2 changed] eqn:U.
      assert (Hb2 : b2 = fst (update_board (board st) move))
        by (rewrite <- Hb, U; reflexivity).
      destruct (check_win b2 move).
      * intros H. inversion H; subst. exists [(board st1, move)].
        split; [reflexivity |]. simpl. auto.
      * intros H. apply IH in H. destruct H as [added [-> Ha]].
        exists ((board st1, move) :: added). rewrite <- app_assoc.
        split; [reflexivity |]. simpl. simpl in Ha. rewrite <- Hb2. auto.
    + intros H. inversion H; subst. exists []. rewrite app_nil_r. simpl. auto.
Qed.

(** X13. Throughout a game run by [main], whoever moves and however the
    game ends, every move handed to [update_board] is legal on the board
    it is applied to, that board is exactly the one the moves before it
    produced (the AI's search leaves no trace on it), and the marks
    alternate, ['O'] for the first player and ['X'] for the second. *)
Theorem main_plays_legal_alternating_moves rounds fuel play_AI minimax_depth
    branch_factor (b : Board) clicks e st' played :
  Game.main tile_size rounds fuel play_AI minimax_depth branch_factor b clicks
  = (e, st', played) ->
  Game.played_in_turn O X 0 b played.
Proof.
  unfold Game.main, Game.setup. simpl.
  destruct play_AI; simpl; intros H; apply main_loop_trace in H;
    destruct H as [added [-> Ha]]; exact Ha.
Qed.

End GameLoop.

Section Winner.
Context {Board TileState : Type} `{API : BoardAPI Board TileState}.
Variable tile_size : Board -> Z.

Lemma take_turn_mark fuel player1 player2 turn (st : AIState Board) clicks
    move st' clicks' :
  Game.take_turn tile_size fuel player1 player2 turn st clicks
  = (inl move, st', clicks') ->
  snd move = (if turn mod 2 =? 0 then Game.mark player1 else Game.mark2 player2).
Proof.
  unfold Game.take_turn.
  assert (Hh : forall p,
             match Game.Player_get_move tile_size p (board st) clicks with
             | (Game.Got move0, rest) => (inl move0, st, rest)
             | (Game.ZeroDivision, rest) => (inr Game.DivisionByZero, st, rest)
             | (Game.NoMoreClicks, rest) => (inr Game.AwaitingClick, st, rest)
             end = (inl move, st', clicks') ->
             snd move = Game.mark p).
  { intros p.
    destruct (Game.Player_get_move tile_size p (board st) clicks)
      as [[mv | |] rest] eqn:E; intros H; inversion H; subst.
    apply Player_get_move_got in E. tauto. }
  destruct (turn mod 2 =? 0); [apply Hh |].
  destruct player2 as [p | a]; [apply Hh |]. simpl.
  destruct (get_move fuel (Game.mark (Game.player a)) (Game.minimax_depth a)
                     (Game.branch_factor a) st) as [[mv | e |] st1] eqn:E;
    intros H; inversion H; subst.
  eapply get_move_legal_own_mark, E.
Qed.

Lemma take_turn_never_wins fuel player1 player2 turn (st : AIState Board) clicks
    n st' clicks' :
  Game.take_turn tile_size fuel player1 player2 turn st clicks
  <> (inr (Game.Wins n), st', clicks').
Proof.
  unfold Game.take_turn.
  assert (Hh : forall p,
             match Game.Player_get_move tile_size p (board st) clicks with
             | (Game.Got move0, rest) => (inl move0, st, rest)
             | (Game.ZeroDivision, rest) => (inr Game.DivisionByZero, st, rest)
             | (Game.NoMoreClicks, rest) => (inr Game.AwaitingClick, st, rest)
             end <> (inr (Game.Wins n), st', clicks')).
  { intros p.
    destruct (Game.Player_get_move tile_size p (board st) clicks)
      as [[mv | |] rest]; discriminate. }
  destruct (turn mod 2 =? 0); [apply Hh |].
  destruct player2 as [p | a]; [apply Hh |]. simpl.
  destruct (get_move fuel (Game.mark (Game.player a)) (Game.minimax_depth a)
                     (Game.branch_factor a) st) as [[mv | e |] st1];
    discriminate.
Qed.

Lemma main_loop_winner rounds :
  forall fuel player1 player2 turn (st : AIState Board) clicks played n st' played',
    Game.main_loop tile_size rounds fuel player1 player2 turn st clicks played
    = (Game.Wins n, st', played') ->
    exists before b0 move,
      played' = before ++ [(b0, move)] /\
      board st' = fst (update_board b0 move) /\
      check_win (board st') move = true /\
      ((n = 1 /\ snd move = Game.mark player1) \/
       (n = 2 /\ snd move = Game.mark2 player2)).
Proof.
  induction rounds as [| rounds IH];
    intros fuel player1 player2 turn st clicks played n st' played'; simpl;
    [discriminate |].
  destruct (Game.take_turn tile_size fuel player1 player2 turn st clicks)
    as [[[move | e0] st1] clicks1] eqn:T.
  - apply take_turn_mark in T.
    destruct (update_board (board st1) move) as [b2 changed] eqn:U.
    destruct (check_win b2 move) eqn:W.
    + intros H. inversion H; subst. exists played, (board st1), move.
      rewrite U. cbn [board fst]. repeat split; auto.
      destruct (turn mod 2 =? 0); [left | right]; split; auto.
    + apply IH.
  - intros H. inversion H; subst. exfalso.
    eapply take_turn_never_wins, T.
Qed.

(** X14. When [main] announces a winner, the last move applied completed
    a win on the board the game ends with, and the player announced is
    the one who made it: player 1 if the winning mark is ['O'], player 2
    if it is ['X']. *)
Theorem announced_winner_made_last_move rounds fuel play_AI minimax_depth
    branch_factor (b : Board) clicks n st' played :
  Game.main tile_size rounds fuel play_AI minimax_depth branch_factor b clicks
  = (Game.Wins n, st', played) ->
  exists before b0 move,
    played = before ++ [(b0, move)] /\
    board st' = fst (update_board b0 move) /\
    check_win (board st') move = true /\
    ((n = 1 /\ snd move = O) \/ (n = 2 /\ snd move = X)).
Proof.
  unfold Game.main, Game.setup. simpl.
  destruct play_AI; simpl; intros H; apply main_loop_winner in H; exact H.
Qed.

End Winner.

(** ** The further properties on the strip *)

Lemma minimax_returns_a_candidate_witness :
  In (2, 0, O) (map snd (cap_x 20 (fst two_in_row_lists))) \/
  In (2, 0, O) (map snd (cap_o 20 (snd two_in_row_lists))).
Proof.
  apply (minimax_returns_a_candidate 2%nat true 1 20 two_in_row_lists NegInf PosInf
           (mkState two_in_row 0) (2, 0, O) PosInf (mkState two_in_row 2)).
  vm_compute. reflexivity.
Defined.

Lemma get_move_returns_legal_move_witness :
  check_legal midgame (10, 0, O) = true /\ snd ((10, 0, O) : Move) = O.
Proof.
  apply (get_move_returns_legal_move 4%nat O 3 20 (mkState midgame 0) (10, 0, O)
           (mkState midgame 0)).
  vm_compute. reflexivity.
Defined.

Lemma last_ply_scores_statically_witness :
  (check_win (fst (update_board two_in_row (5, 0, O))) (5, 0, O) = true /\
   Num 10 = PosInf) \/
  (check_win (fst (update_board two_in_row (5, 0, O))) (5, 0, O) = false /\
   Num 10 = Num (score_board (fst (update_board two_in_row (5, 0, O))))).
Proof.
  apply (last_ply_scores_statically strip_undo_exact 2%nat true 20 two_in_row_lists
           NegInf (Num 0) (mkState two_in_row 0) (5, 0, O) (Num 10)
           (mkState two_in_row 1)).
  vm_compute. reflexivity.
Defined.

Lemma minimax_terminates_within_depth_witness :
  fst (minimax 7 true 3 20 midgame_lists NegInf PosInf (mkState midgame 0))
  <> OutOfFuel /\
  minimax 7 true 3 20 midgame_lists NegInf PosInf (mkState midgame 0)
  = minimax (Z.to_nat 3) true 3 20 midgame_lists NegInf PosInf (mkState midgame 0).
Proof.
  apply (minimax_terminates_within_depth 7%nat true 3 20 midgame_lists NegInf PosInf
           (mkState midgame 0)); [lia | vm_compute; lia].
Defined.

Lemma nonpositive_depth_never_scores_witness :
  (PosInf = PosInf \/ PosInf = NegInf) /\
  minimax 3 true (-1) 20 two_in_row_lists NegInf PosInf (mkState two_in_row 0)
  = (OutOfFuel, mkState [Some O; Some O; None; Some X; Some O; Some O] 3).
Proof.
  split; [| vm_compute; reflexivity].
  apply (nonpositive_depth_never_scores true 1%nat true 0 20 winning_only
           NegInf PosInf (mkState two_in_row 0) (2, 0, O) PosInf
           (mkState two_in_row 1)); [lia | vm_compute; reflexivity].
Defined.

Lemma degenerate_caps_witness :
  cap_x (-3) x_only_list = firstn (length x_only_list - Z.to_nat ((1 - -3) / 2)) x_only_list /\
  cap_o (-3) three_o = skipn (Z.to_nat ((- -3) / 2)) three_o.
Proof.
  apply (proj2 (proj2 (degenerate_caps x_only_list three_o))).
  lia.
Defined.

Lemma candidate_lists_stay_ordered_witness :
  lists_ordered (nxt_mark_of (snd played_move))
    (new_poss_moves (fst (update_board opening played_move))
       (snd (update_board opening played_move)) played_move
       (cap_x 20 (fst (fst (get_possible_moves (mkState opening 0) true))))
       (cap_o 20 (snd (fst (get_possible_moves (mkState opening 0) true))))).
Proof.
  apply (proj2 (proj2 (candidate_lists_stay_ordered (Board := Strip.Board)))
           _ _ _ O).
  apply (proj1 (proj2 (candidate_lists_stay_ordered (Board := Strip.Board)))
           20 O (fst (get_possible_moves (mkState opening 0) true))).
  apply (proj1 (candidate_lists_stay_ordered (Board := Strip.Board))
           (mkState opening 0) true).
Defined.

Lemma root_loop_is_never_cut_witness :
  for_loop (fun m d p a b st0 => minimax 2 m d 10 p a b st0) true true 3
           (fst midgame_lists) (snd midgame_lists)
           (move_order true (fst midgame_lists) (snd midgame_lists))
           (mkLoop [] NegInf PosInf (mkState midgame 0))
  = for_loop (fun m d p a b st0 => minimax 2 m d 10 p a b st0) false true 3
             (fst midgame_lists) (snd midgame_lists)
             (move_order true (fst midgame_lists) (snd midgame_lists))
             (mkLoop [] NegInf PosInf (mkState midgame 0)).
Proof.
  apply (root_loop_is_never_cut (Board := Strip.Board)). reflexivity.
Defined.

Lemma cutoff_preserves_move_witness :
  exists stP,
    minimax 4 true 3 20 midgame_lists NegInf PosInf (mkState midgame 0)
    = (Ret ((10, 0, O), Num 6), stP).
Proof.
  apply (cutoff_preserves_move strip_undo_exact 4%nat true 3 20 midgame_lists
           (mkState midgame 0) ((10, 0, O), Num 6) (mkState midgame 364)).
  vm_compute. reflexivity.
Defined.

Lemma cutoff_never_costs_more_witness :
  exists rP stP,
    minimax 4 true 3 20 midgame_lists NegInf PosInf (mkState midgame 0)
    = (Ret rP, stP) /\
    minimax_stack_depth stP <= 364.
Proof.
  apply (cutoff_never_costs_more strip_undo_exact 4%nat true 3 20 midgame_lists
           NegInf PosInf (mkState midgame 0) ((10, 0, O), Num 6)
           (mkState midgame 364)).
  vm_compute. reflexivity.
Defined.

Lemma only_first_player_holds_O_witness :
  Game.player_num (fst (Game.Player_init 2)) = 2 /\
  (Game.mark (fst (Game.Player_init 2)) = O <-> 2%nat = 0%nat) /\
  (Game.mark (fst (Game.Player_init 2)) = X <-> 2%nat <> 0%nat).
Proof.
  apply (proj2 (only_first_player_holds_O 3) 2%nat (fst (Game.Player_init 2))).
  reflexivity.
Defined.

Lemma human_move_is_first_legal_click_witness :
  ten_pixels opening <> 0 /\
  check_legal opening (1, 0, X) = true /\
  snd ((1, 0, X) : Move) = Game.mark second_player /\
  exists skipped x y,
    stray_clicks = skipped ++ (x, y) :: [(20, 20)] /\
    ((1, 0, X) : Move) = (x / ten_pixels opening, y / ten_pixels opening,
                          Game.mark second_player) /\
    Forall (fun xy => check_legal opening
                        (fst xy / ten_pixels opening, snd xy / ten_pixels opening,
                         Game.mark second_player) = false) skipped.
Proof.
  apply (human_move_is_first_legal_click ten_pixels second_player opening
           stray_clicks (1, 0, X) [(20, 20)]).
  vm_compute. reflexivity.
Defined.

Lemma main_plays_legal_alternating_moves_witness :
  Game.played_in_turn O X 0 empty7
    (snd (Game.main ten_pixels 10 3 true 1 20 empty7 against_ai_clicks)).
Proof.
  apply (main_plays_legal_alternating_moves ten_pixels strip_undo_exact
           10%nat 3%nat true 1 20 empty7 against_ai_clicks
           (fst (fst (Game.main ten_pixels 10 3 true 1 20 empty7 against_ai_clicks)))
           (snd (fst (Game.main ten_pixels 10 3 true 1 20 empty7 against_ai_clicks)))).
  vm_compute. reflexivity.
Defined.

Lemma announced_winner_made_last_move_witness :
  exists before b0 move,
    snd (Game.main ten_pixels 10 0 false 0 0 empty5 two_humans_clicks)
    = before ++ [(b0, move)] /\
    [Some O; Some O; Some O; Some X; Some X] = fst (update_board b0 move) /\
    check_win [Some O; Some O; Some O; Some X; Some X] move = true /\
    ((1 = 1 /\ snd move = O) \/ (1 = 2 /\ snd move = X)).
Proof.
  apply (announced_winner_made_last_move ten_pixels 10%nat 0%nat false 0 0 empty5
           two_humans_clicks 1
           (mkState [Some O; Some O; Some O; Some X; Some X] 0)).
  vm_compute. reflexivity.
Defined.
